(** * Verification of the notebook recommender (recommender_system.ipynb)

    A shallow embedding of the class [RecommenderSystem] of the notebook
    and of the library calls it is written with:

    - [compare_movies], with numpy's float32 scalars (every operation
      is rounded; a division by zero yields an infinity or a NaN, it
      does not raise);
    - [get_sparse], with scipy's [csr_matrix((data, (row, col)))]
      constructor and [astype("int32")];
    - [fit], with scikit-learn's [train_test_split] and the write of the
      model file;
    - [recommend_for_new_users], with pandas' [sort_values] / [unique]
      and numpy's [random.randint] and index arrays;
    - [recommend_for_user], with the [recommend] method of the
      factorisation model and the dictionary built from its answer.

    Random choices (the permutation drawn by [train_test_split], the
    integers drawn by [np.random.randint]) are arguments of the
    functions: a seed fixes them, the theorems hold for all of them. *)

From Stdlib Require Import ZArith QArith Qabs Qround Qpower Lia Lqa Ascii.
From stdpp Require Import base option list sorting gmap strings pretty.

(** ** Python exceptions and results *)

Inductive exn : Set :=
| ValueError
| IndexError
| ZeroDivisionError
| AttributeError.

Inductive result (A : Type) : Type :=
| Ok (a : A)
| Raise (e : exn).

Arguments Ok {A} a.
Arguments Raise {A} e.

#[global] Instance result_ret : MRet result := fun _ a => Ok a.
#[global] Instance result_bind : MBind result := fun _ _ f m =>
  match m with
  | Ok a => f a
  | Raise e => Raise e
  end.

Definition is_ok {A} (r : result A) : Prop := exists a, r = Ok a.

(** ** Rational helpers *)

Local Open Scope Q_scope.

Definition Qltb (x y : Q) : bool := negb (Qle_bool y x).

(** ** numpy float32 scalars

    The scores of the data frame are [float32] (see [change_types]); the
    arithmetic of [compare_movies] is numpy scalar arithmetic: every
    operation gives the float32 nearest to the exact result (ties to the
    even significand), a result of magnitude [2^128] after rounding is
    an infinity, and a Python number met in an operation is first taken
    to float32 (the promotion of NumPy 2).  A division by zero gives an
    infinity or a NaN and a warning, never an exception.

    A value is its exact rational.  Two things of the format are left
    out: the sign of zero, which [compare_movies] takes the absolute
    value of, and gradual underflow: a result below [2^-126] keeps its
    24 bits here.  Between float32 scores that does not show: their
    difference, when that small, is exact in both, and its quotient by
    one of them is [2^-24] at least. *)

Inductive float32 : Set :=
| Finite (q : Q)
| Infinity (negative : bool)
| NaN.

Definition Qneg (q : Q) : bool := Qltb q 0.

(** The binary exponent of a positive rational: the [e] with
    [2^e <= q < 2^(e+1)]. *)
Definition Qlog2 (q : Q) : Z :=
  let k := (Z.log2 (Qnum q) - Z.log2 (Zpos (Qden q)))%Z in
  if Qle_bool (2 ^ k) q then k else (k - 1)%Z.

(** The nearest integer, a tie going to the even one. *)
Definition round_half_even (x : Q) : Z :=
  let f := Qfloor x in
  match Qcompare (x - inject_Z f) (1 # 2) with
  | Lt => f
  | Gt => (f + 1)%Z
  | Eq => if Z.even f then f else (f + 1)%Z
  end.

(** The distance between the float32 values around a positive rational
    (24 significant bits). *)
Definition ulp32 (a : Q) : Q := 2 ^ (Qlog2 a - 23).

(** A positive rational rounded to 24 significant bits. *)
Definition round24 (a : Q) : Q :=
  inject_Z (round_half_even (a / ulp32 a)) * ulp32 a.

(** The float32 nearest to a rational. *)
Definition round32 (q : Q) : float32 :=
  if Qeq_bool q 0 then Finite 0
  else
    let v := round24 (Qabs q) in
    if Qle_bool (2 ^ 128) v then Infinity (Qneg q)
    else Finite (if Qneg q then - v else v).

Definition f_sub (x y : float32) : float32 :=
  match x, y with
  | NaN, _ | _, NaN => NaN
  | Finite a, Finite b => round32 (a - b)
  | Infinity s, Finite _ => Infinity s
  | Finite _, Infinity s => Infinity (negb s)
  | Infinity s, Infinity s' => if eqb s s' then NaN else Infinity s
  end.

Definition f_mul (x y : float32) : float32 :=
  match x, y with
  | NaN, _ | _, NaN => NaN
  | Finite a, Finite b => round32 (a * b)
  | Infinity s, Finite b | Finite b, Infinity s =>
      if Qeq_bool b 0 then NaN else Infinity (xorb s (Qneg b))
  | Infinity s, Infinity s' => Infinity (xorb s s')
  end.

Definition f_div (x y : float32) : float32 :=
  match x, y with
  | NaN, _ | _, NaN => NaN
  | Finite a, Finite b =>
      if Qeq_bool b 0
      then if Qeq_bool a 0 then NaN else Infinity (Qneg a)
      else round32 (a / b)
  | Finite _, Infinity _ => Finite 0
  | Infinity s, Finite b => Infinity (xorb s (Qneg b))
  | Infinity _, Infinity _ => NaN
  end.

Definition f_abs (x : float32) : float32 :=
  match x with
  | Finite a => Finite (Qabs a)
  | Infinity _ => Infinity false
  | NaN => NaN
  end.

(** [x > t] for a float32 [x] and a finite Python number [t], which is
    taken to float32 for the comparison. *)
Definition f_gt (x : float32) (t : Q) : bool :=
  match x, round32 t with
  | NaN, _ | _, NaN => false
  | Finite a, Finite b => Qltb b a
  | Finite _, Infinity negative => negative
  | Infinity negative, Finite _ => negb negative
  | Infinity s, Infinity s' => negb s && s'
  end.

(** A float that is not zero (and is a number). *)
Definition f_nonzero (x : float32) : Prop :=
  match x with
  | Finite r => ~ r == 0
  | Infinity _ => True
  | NaN => False
  end.

(** The width of the band around the threshold in which the rounding of
    the three operations and of the threshold decides the comparison:
    [2^-21], eight times the relative error of one rounding. *)
Definition rounding_margin : Q := 1 # 2097152.

(** ** Python floats

    The Python float (binary64) nearest to a rational: 53 significant
    bits, ties to even.  The exponent range is not modelled. *)

Definition ulp64 (a : Q) : Q := 2 ^ (Qlog2 a - 52).

Definition round53 (a : Q) : Q :=
  inject_Z (round_half_even (a / ulp64 a)) * ulp64 a.

Definition float64 (q : Q) : Q :=
  if Qeq_bool q 0 then 0
  else if Qneg q then - round53 (Qabs q) else round53 (Qabs q).

(** ** The data frame [self.df]

    One row per rating, as [BingeDataset.get_df] leaves it; only the
    columns the recommender reads are kept. *)

Record df_row : Type := DfRow {
  movie_id : nat;
  score : Q;
}.

Abbreviation DataFrame := (list df_row).

(** [self.df.loc[self.df["movie_id"] == m, "score"]] *)
Definition loc_score (df : DataFrame) (m : nat) : list Q :=
  score <$> filter (fun r => movie_id r = m) df.

(** A movie id that no row of the data frame carries. *)
Definition unknown_movie (df : DataFrame) (m : nat) : Prop :=
  forall r, r ∈ df -> movie_id r <> m.

(** A movie id that some row of the data frame carries. *)
Definition known_movie (df : DataFrame) (m : nat) : Prop :=
  exists r, r ∈ df /\ movie_id r = m.

(** [.iloc[0]]: the first element, [IndexError] on an empty selection. *)
Definition iloc0 {A} (l : list A) : result A :=
  match l with
  | [] => Raise IndexError
  | x :: _ => Ok x
  end.

(** ** [compare_movies] *)

Definition compare_movies (df : DataFrame) (movie_one_id movie_two_id : nat)
    (threshold : Q) : result bool :=
  if Qltb 100 threshold || Qltb threshold 0 then Raise ValueError
  else
    movie_one_score ← iloc0 (loc_score df movie_one_id);
    movie_two_score ← iloc0 (loc_score df movie_two_id);
    let difference_by_percentage :=
      f_abs (f_mul (f_div (f_sub (Finite movie_one_score)
                                 (Finite movie_two_score))
                          (Finite movie_one_score))
                   (Finite 100)) in
    Ok (f_gt difference_by_percentage threshold).

(** The float [compare_movies] compares with the threshold. *)
Definition difference_by_percentage (movie_one_score movie_two_score : Q)
    : float32 :=
  f_abs (f_mul (f_div (f_sub (Finite movie_one_score)
                             (Finite movie_two_score))
                      (Finite movie_one_score))
               (Finite 100)).

Local Close Scope Q_scope.

(** ** Fixed-width integers *)

(** The value a two's complement integer of [bits] bits holds after a
    cast or an overflowing addition. *)
Definition wrap (bits : Z) (z : Z) : Z :=
  ((z + 2 ^ (bits - 1)) mod 2 ^ bits - 2 ^ (bits - 1))%Z.

Definition int32_range (z : Z) : Prop := (- 2 ^ 31 <= z < 2 ^ 31)%Z.

(** ** scipy's [csr_matrix]

    Row-oriented sparse storage: one finite map from column to stored
    value per row, and the number of columns. *)

Record csr_matrix : Type := CsrMatrix {
  n_cols : nat;
  rows : list (gmap nat Z);
}.

Definition shape (X : csr_matrix) : nat * nat := (length (rows X), n_cols X).

(** [X[u, i]]: the stored value, 0 where nothing is stored, [IndexError]
    outside the shape. *)
Definition getitem (X : csr_matrix) (u i : nat) : result Z :=
  match rows X !! u with
  | None => Raise IndexError
  | Some row => if (i <? n_cols X)%nat then Ok (default 0%Z (row !! i))
                else Raise IndexError
  end.

(** [X[u]]: one row. *)
Definition getrow (X : csr_matrix) (u : nat) : result (gmap nat Z) :=
  match rows X !! u with
  | None => Raise IndexError
  | Some row => Ok row
  end.

(** Number of nonzero values of a row, and of a matrix. *)
Definition row_nonzero (row : gmap nat Z) : nat :=
  size (filter (fun kv => kv.2 <> 0%Z) row).

Definition count_nonzero (X : csr_matrix) : nat :=
  sum_list (row_nonzero <$> rows X).

(** [X.nnz]: number of stored values. *)
Definition nnz (X : csr_matrix) : nat := sum_list (size <$> rows X).

(** The position [(u, i)] holds a nonzero value. *)
Definition nonzero_at (X : csr_matrix) (u i : nat) : Prop :=
  exists v, getitem X u i = Ok v /\ v <> 0%Z.

(** ** The ratings and [get_sparse] *)

(** A row of [get_cleaned_ratings()]: the rating files' columns, without
    [datetime].  Ids are natural numbers (the constructor refuses a
    negative index); ratings are the integers of the files. *)
Record rating_row : Type := RatingRow {
  rt_movie_id : nat;
  rt_user_id : nat;
  rt_rating : Z;
}.

(** One triple of the coordinate format added to the rows: a value at a
    position that is already stored is added to it (int64 addition). *)
Definition add_entry (r : rating_row) (M : list (gmap nat Z))
    : list (gmap nat Z) :=
  alter (fun row : gmap nat Z =>
           <[rt_movie_id r :=
               wrap 64 (rt_rating r + default 0 (row !! rt_movie_id r))%Z]> row)
        (rt_user_id r) M.

(** [csr_matrix((data, (row, col)))]: the shape is inferred from the
    largest indices, equal positions are summed. *)
Definition csr_of_coo (ratings : list rating_row) : result csr_matrix :=
  match ratings with
  | [] => Raise ValueError
  | _ =>
      let M := S (max_list (rt_user_id <$> ratings)) in
      let N := S (max_list (rt_movie_id <$> ratings)) in
      Ok (CsrMatrix N (foldr add_entry (replicate M ∅) ratings))
  end.

(** [.astype("int32")] *)
Definition astype_int32 (X : csr_matrix) : csr_matrix :=
  CsrMatrix (n_cols X) ((fun row : gmap nat Z => wrap 32 <$> row) <$> rows X).

Definition get_sparse (ratings : list rating_row) : result csr_matrix :=
  X ← csr_of_coo ratings;
  Ok (astype_int32 X).

(** Sum of the ratings given for a position. *)
Definition rating_sum (ratings : list rating_row) (u i : nat) : Z :=
  foldr (fun r acc =>
           if decide (rt_user_id r = u /\ rt_movie_id r = i)
           then (rt_rating r + acc)%Z else acc) 0%Z ratings.

Definition rating_key (r : rating_row) : nat * nat :=
  (rt_user_id r, rt_movie_id r).

(** ** numpy index arrays *)

(** [a[idx]] for an array of indices: [IndexError] when one is out of
    bounds. *)
Fixpoint fancy_index {A} (a : list A) (idx : list nat) : result (list A) :=
  match idx with
  | [] => Ok []
  | i :: idx' =>
      match a !! i with
      | None => Raise IndexError
      | Some x => xs ← fancy_index a idx'; Ok (x :: xs)
      end
  end.

(** ** scikit-learn's [train_test_split] *)

(** [test_size]: a Python float (a fraction of the samples) or an int
    (a number of samples). *)
Inductive size_arg : Type :=
| Fraction (q : Q)
| Count (k : Z).

(** [_validate_shuffle_split] with [train_size=None].  A fraction is the
    Python float nearest to [q], and [ceil(test_size * n_samples)] is
    taken of the float product. *)
Definition validate_shuffle_split (n_samples : nat) (test_size : size_arg)
    : result (nat * nat) :=
  n_test ← match test_size with
           | Fraction q =>
               let test_size := float64 q in
               if Qle_bool test_size 0%Q || Qle_bool 1%Q test_size
               then Raise ValueError
               else Ok (Z.to_nat
                          (Qceiling
                             (float64 (test_size
                                       * inject_Z (Z.of_nat n_samples))%Q)))
           | Count k =>
               if (k <=? 0)%Z || (Z.of_nat n_samples <=? k)%Z
               then Raise ValueError
               else Ok (Z.to_nat k)
           end;
  let n_train := (n_samples - n_test)%nat in
  if (n_train =? 0)%nat then Raise ValueError else Ok (n_train, n_test).

(** The two index arrays: [permutation] is what
    [rng.permutation(n_samples)] returned for the given [random_state]
    (its first [n_test] entries are the test indices); without [shuffle]
    the train indices come first, in order. *)
Definition split_indices (shuffle : bool) (permutation : list nat)
    (n_train n_test : nat) : list nat * list nat :=
  (if shuffle then take n_train (drop n_test permutation) else seq 0 n_train,
   if shuffle then take n_test permutation else seq n_train n_test).

(** [train_test_split(X, test_size=..., shuffle=..., random_state=...)]:
    the samples are the rows of the matrix, and each part is [X[indices]],
    a selection of whole rows. *)
Definition train_test_split (X : csr_matrix) (test_size : size_arg)
    (shuffle : bool) (permutation : list nat)
    : result (csr_matrix * csr_matrix) :=
  '(n_train, n_test) ← validate_shuffle_split (length (rows X)) test_size;
  let '(train, test) := split_indices shuffle permutation n_train n_test in
  X_train ← fancy_index (rows X) train;
  X_test ← fancy_index (rows X) test;
  Ok (CsrMatrix (n_cols X) X_train, CsrMatrix (n_cols X) X_test).

(** ** pandas [sort_values] and [unique] *)

(** What [df.sort_values(by="score", ascending=False)] guarantees: the
    rows of [df], rearranged so that scores never increase.  The default
    sorting kind (quicksort) is not stable: the order of rows with equal
    scores is not specified, and no other column takes part. *)
Definition score_ge (r1 r2 : df_row) : Prop := Qle_bool (score r2) (score r1).

Record sorts_by_score_desc (sort_values : DataFrame -> DataFrame) : Prop := {
  sort_values_perm : forall df, sort_values df ≡ₚ df;
  sort_values_sorted : forall df, StronglySorted score_ge (sort_values df);
}.

(** One sorting function with these properties, to run the examples. *)
Definition merge_sort_values : DataFrame -> DataFrame := merge_sort score_ge.

(** [Series.unique()]: the distinct values in order of first appearance
    (a table of the values seen so far is kept). *)
Fixpoint unique_from (seen : list nat) (l : list nat) : list nat :=
  match l with
  | [] => []
  | x :: l' =>
      if decide (x ∈ seen) then unique_from seen l'
      else x :: unique_from (x :: seen) l'
  end.

Definition unique (l : list nat) : list nat := unique_from [] l.

(** ** [recommend_for_new_users] *)

(** [np.random.randint(0, high, n)] returned [draws]: [n] integers, each
    in [0, high) and drawn independently of the others. *)
Definition randint_outcome (high n : nat) (draws : list nat) : Prop :=
  length draws = n /\ Forall (fun d => d < high) draws.

(** The candidate pool:
    [df.sort_values(...)["movie_id"].unique()[:size]]. *)
Definition candidate_pool (sort_values : DataFrame -> DataFrame)
    (df : DataFrame) (size_of_pool_to_select_from : nat) : list nat :=
  take size_of_pool_to_select_from (unique (movie_id <$> sort_values df)).

(** [movies_to_select] is the array [np.random.randint] returned; the
    call raises [ValueError] when the pool size is 0 (low >= high),
    unless no integer is asked for. *)
Definition recommend_for_new_users (sort_values : DataFrame -> DataFrame)
    (df : DataFrame) (size_of_pool_to_select_from : nat)
    (movies_to_select : list nat) : result (list nat) :=
  if (size_of_pool_to_select_from =? 0)%nat
     && negb (length movies_to_select =? 0)%nat
  then Raise ValueError
  else fancy_index (candidate_pool sort_values df size_of_pool_to_select_from)
                   movies_to_select.

(** ** Python dictionaries

    A dictionary keeps its keys in insertion order; setting a key that is
    present replaces its value in place. *)
Fixpoint dict_set {V} (d : list (nat * V)) (k : nat) (v : V)
    : list (nat * V) :=
  match d with
  | [] => [(k, v)]
  | (k', v') :: d' =>
      if decide (k' = k) then (k, v) :: d' else (k', v') :: dict_set d' k v
  end.

(** [{k: v for (k, v) in pairs}] *)
Definition dict_of {V} (pairs : list (nat * V)) : list (nat * V) :=
  foldl (fun d kv => dict_set d kv.1 kv.2) [] pairs.

(** ** The object: [RecommenderSystem] *)

(** A file: a model written by [model.save], or anything else. *)
Inductive file (Model : Type) : Type :=
| ModelFile (m : Model)
| OtherFile (content : string).

Arguments ModelFile {Model} m.
Arguments OtherFile {Model} content.

(** The attributes of the object.  [model] is [None] when [__init__]
    found no model file and [fit] has not been called. *)
Record RecommenderSystem (Model : Type) : Type := {
  df : DataFrame;
  sparse_matrix : csr_matrix;
  model_save_address : string;
  model : option Model;
  test_score : option Q;
}.

Arguments df {Model} _.
Arguments sparse_matrix {Model} _.
Arguments model_save_address {Model} _.
Arguments model {Model} _.
Arguments test_score {Model} _.

(** ** The factorisation model (the [implicit] library) *)

(** [model.recommend(userid, user_items, N)]: two arrays, item ids and
    scores.  The method belongs to the library; the program is proved
    for every model. *)
Class Recommender (Model : Type) := {
  recommend : Model -> nat -> gmap nat Z -> nat -> result (list nat * list Q);
}.

(** ** [recommend_for_user] *)

(** Python looks up [self.model.recommend] first ([AttributeError] on
    [None]), then evaluates the arguments ([IndexError] of
    [self.sparse_matrix[user_id]]), then calls. *)
Definition recommend_for_user `{Recommender Model}
    (self : RecommenderSystem Model) (user_id : nat)
    (number_of_movies_to_recommend : nat) : result (list (nat * Q)) :=
  match model self with
  | None => Raise AttributeError
  | Some fitted =>
      user_items ← getrow (sparse_matrix self) user_id;
      recommendation_list ← recommend fitted user_id user_items
                                       number_of_movies_to_recommend;
      Ok (dict_of (zip recommendation_list.1 recommendation_list.2))
  end.

(** The keys of a dictionary, in its order. *)
Definition dict_keys {V} (d : list (nat * V)) : list nat := d.*1.

(** ** Training: [fit], [evaluate_model], [load_model] *)

(** The keyword arguments given to [AlternatingLeastSquares].  The
    [random_state] of [fit] is a parameter of its own and goes to
    [train_test_split] only: it is never among them. *)
Record als_kwargs : Type := {
  factors : nat;
  regularization : Q;
  alpha : Q;
  iterations : nat;
}.

(** The training and evaluation routines of the library, on matrices in
    memory: [AlternatingLeastSquares] built from the keyword arguments
    and fitted on [X], giving the fitted
    model, and [mean_average_precision_at_k(model, train, test)].  Either
    can raise. *)
Class Trainer (Model : Type) := {
  als_fit : als_kwargs -> csr_matrix -> result Model;
  mean_average_precision_at_k :
    Model -> csr_matrix -> csr_matrix -> result Q;
}.

(** [load_model]: the model of the file when the path exists ([load]
    raises on a file that is no model). *)
Definition load_model {Model} (fs : gmap string (file Model))
    (model_save_address : string) : result (option Model) :=
  match fs !! model_save_address with
  | None => Ok None
  | Some (ModelFile m) => Ok (Some m)
  | Some (OtherFile _) => Raise ValueError
  end.

Definition evaluate_model `{Trainer Model} (model : Model)
    (X_train X_test : csr_matrix) : result Q :=
  mean_average_precision_at_k model X_train X_test.

(** [s.endswith(suffix)] *)
Definition endswith (s suffix : string) : bool :=
  (String.length suffix <=? String.length s)%nat &&
  String.eqb (String.substring (String.length s - String.length suffix)
                        (String.length suffix) s) suffix.

(** The file [np.savez(file, ...)] writes, which [model.save] calls:
    the extension is appended to a name that does not end with it. *)
Definition npz_path (file : string) : string :=
  if endswith file ".npz" then file else file +:+ ".npz".

(** [fit]: the state of the object and of the file system after a call
    that returns, and the value returned.  [model.save] writes the file
    of [model_save_address] (its directory is taken to exist).  A call
    that raises leaves no file; the object it leaves is not modelled. *)
Definition fit `{Trainer Model} (self : RecommenderSystem Model)
    (fs : gmap string (file Model))
    (test_size : size_arg) (shuffle : bool) (permutation : list nat)
    (kwargs : als_kwargs)
    : result (RecommenderSystem Model * gmap string (file Model)
              * (Model * Q)) :=
  '(X_train, X_test) ← train_test_split (sparse_matrix self) test_size
                                        shuffle permutation;
  model ← als_fit kwargs X_train;
  test_score ← evaluate_model model X_train X_test;
  let fs' := <[npz_path (model_save_address self) := ModelFile model]> fs in
  Ok ({| df := df self;
         sparse_matrix := sparse_matrix self;
         model_save_address := model_save_address self;
         model := Some model;
         test_score := Some test_score |},
      fs', (model, test_score)).

(** ** Models for the examples

    The models of the library are not part of the program, and the
    numbers they hold are the outcome of a floating-point iteration from
    a random start.  The examples run on placeholders for them, and
    what they state of a run leaves the model and the score open. *)

(** A fitted model as far as its shape goes: one row of factors per
    user and per item. *)
Record FactorModel : Type := {
  user_factors : list (list Q);
  item_factors : list (list Q);
}.

(** Whether the library's ranking metrics divide by zero: no user of
    the test matrix has an item (the mean is taken over no user), or a
    user of the test matrix has every item (no item is left to rank
    against). *)
Definition metrics_divide_by_zero (X_test : csr_matrix) : bool :=
  forallb (fun row : gmap nat Z => (size row =? 0)%nat) (rows X_test)
  || existsb (fun row : gmap nat Z =>
                negb (size row =? 0)%nat && (n_cols X_test <=? size row)%nat)
             (rows X_test).

(** Training gives factors of the shape the library gives, all zero;
    the evaluation raises where the library divides by zero, and the
    score it gives otherwise is 0. *)
#[global] Instance zero_trainer : Trainer FactorModel := {
  als_fit kwargs X :=
    Ok {| user_factors :=
            replicate (length (rows X)) (replicate (factors kwargs) 0%Q);
          item_factors :=
            replicate (n_cols X) (replicate (factors kwargs) 0%Q) |};
  mean_average_precision_at_k _ _ X_test :=
    if metrics_divide_by_zero X_test then Raise ZeroDivisionError
    else Ok 0%Q;
}.

(** A model as far as one answer goes: the two arrays [recommend]
    returned. *)
Record recorded_answer : Type := RecordedAnswer {
  answer_ids : list nat;
  answer_scores : list Q;
}.

#[global] Instance recorded_recommender : Recommender recorded_answer := {
  recommend m _ _ _ := Ok (answer_ids m, answer_scores m);
}.

(** The recommender of the notebook before any training: no model file
    exists, so [load_model] left [model] empty. *)
Definition untrained (X : csr_matrix) : RecommenderSystem FactorModel :=
  {| df := [];
     sparse_matrix := X;
     model_save_address := "./models/als_recommender_model.npz";
     model := None;
     test_score := None |}.

Definition some_kwargs : als_kwargs :=
  {| factors := 2; regularization := (1 # 10)%Q; alpha := 1%Q;
     iterations := 20 |}.

(** Five users and twelve movies, and a recommender on them that saves
    its model in the working directory. *)
Definition five_users : csr_matrix :=
  CsrMatrix 12 [ {[ 0 := 5%Z; 3 := 4%Z ]}; {[ 1 := 3%Z ]};
                 {[ 2 := 4%Z; 7 := 2%Z ]}; {[ 5 := 1%Z ]};
                 {[ 4 := 5%Z; 11 := 3%Z ]} ].

Definition saving_to (address : string) : RecommenderSystem FactorModel :=
  {| df := [];
     sparse_matrix := five_users;
     model_save_address := address;
     model := None;
     test_score := None |}.

(** The placeholder for the model fitted on four of the five users. *)
Definition four_users_model : FactorModel :=
  {| user_factors := replicate 4 (replicate 2 0%Q);
     item_factors := replicate 12 (replicate 2 0%Q) |}.

Definition fitted (address : string) : RecommenderSystem FactorModel :=
  {| df := [];
     sparse_matrix := five_users;
     model_save_address := address;
     model := Some four_users_model;
     test_score := Some 0%Q |}.

(** ** The dataset: [BingeDataset]

    The files are outside the program: [read_ratings] and [read_titles]
    give the table [pd.read_csv] parses from a path under the rating and
    the title column names, and nothing for a path that does not exist. *)

(** A result of the dataset layer: a value, a Python exception, or the
    [FileNotFoundError] of a missing file. *)
Inductive io_result (A : Type) : Type :=
| Done (a : A)
| Failed (e : exn)
| FileNotFound (path : string).

Arguments Done {A} a.
Arguments Failed {A} e.
Arguments FileNotFound {A} path.

#[global] Instance io_result_ret : MRet io_result := fun _ a => Done a.
#[global] Instance io_result_bind : MBind io_result := fun _ _ f m =>
  match m with
  | Done a => f a
  | Failed e => Failed e
  | FileNotFound path => FileNotFound path
  end.

Definition of_result {A} (r : result A) : io_result A :=
  match r with
  | Ok a => Done a
  | Raise e => Failed e
  end.

(** A line of a rating file, under the names
    [movie_id, user_id, datetime, rating]. *)
Record raw_rating : Type := RawRating {
  raw_movie_id : nat;
  raw_user_id : nat;
  raw_datetime : string;
  raw_rating_value : Z;
}.

(** A line of the title file, under the names
    [movie_id, year_of_publication, movie_name]; a missing year is NaN. *)
Record title_row : Type := TitleRow {
  title_movie_id : nat;
  year_of_publication : option Z;
  movie_name : string;
}.

Record disk : Type := Disk {
  read_ratings : gmap string (list raw_rating);
  read_titles : gmap string (list title_row);
}.

Record BingeDataset : Type := {
  rating_address_template : string;
  NUMBER_OF_RATING_ADDRESSES : nat;
  movie_titles_address : string;
}.

(** [s.replace(old, new)] for a one-character [old]: every occurrence is
    replaced. *)
Fixpoint str_replace (old : Ascii.ascii) (new s : string) : string :=
  match s with
  | EmptyString => EmptyString
  | String c s' =>
      if decide (c = old) then new +:+ str_replace old new s'
      else String c (str_replace old new s')
  end.

(** Number of occurrences of a character in a string. *)
Fixpoint str_count (c : Ascii.ascii) (s : string) : nat :=
  match s with
  | EmptyString => 0
  | String c' s' => (if decide (c' = c) then 1 else 0) + str_count c s'
  end.

(** [self.rating_address_template.replace("x", str(i))] *)
Definition rating_address (ds : BingeDataset) (i : nat) : string :=
  str_replace "x"%char (pretty i) (rating_address_template ds).

(** The list comprehension over the addresses: the files are read in
    order, the first missing one raises. *)
Fixpoint read_all (d : disk) (addresses : list string)
    : io_result (list (list raw_rating)) :=
  match addresses with
  | [] => Done []
  | address :: rest =>
      match read_ratings d !! address with
      | None => FileNotFound address
      | Some table => tables ← read_all d rest; Done (table :: tables)
      end
  end.

(** [.drop(columns="datetime")] *)
Definition drop_datetime (r : raw_rating) : rating_row :=
  RatingRow (raw_movie_id r) (raw_user_id r) (raw_rating_value r).

(** [get_cleaned_ratings]: the addresses are those of
    [range(1, NUMBER_OF_RATING_ADDRESSES)]; [pd.concat] raises
    [ValueError] on an empty list of tables. *)
Definition get_cleaned_ratings (d : disk) (ds : BingeDataset)
    : io_result (list rating_row) :=
  rating_dfs ← read_all d (rating_address ds
                             <$> seq 1 (NUMBER_OF_RATING_ADDRESSES ds - 1));
  match rating_dfs with
  | [] => Failed ValueError
  | _ => Done (drop_datetime <$> concat rating_dfs)
  end.

(** [RecommenderSystem.get_sparse] as the class has it: on the ratings
    read from the files. *)
Definition get_sparse_from_files (d : disk) (ds : BingeDataset)
    : io_result csr_matrix :=
  ratings ← get_cleaned_ratings d ds;
  of_result (get_sparse ratings).

(** ** pandas [groupby], [median] and [merge] *)

(** The keys of a [groupby]: the distinct values, in ascending order. *)
Definition groupby_keys (keys : list nat) : list nat :=
  merge_sort le (unique keys).

(** The median of integers, as a float: the middle value, or the mean of
    the two middle values (a group is never empty). *)
Definition median (values : list Z) : Q :=
  let sorted := merge_sort Z.le values in
  let n := length sorted in
  if Nat.even n
  then ((inject_Z (sorted !!! (n / 2 - 1)%nat)
         + inject_Z (sorted !!! (n / 2)%nat)) / 2)%Q
  else inject_Z (sorted !!! (n / 2)%nat).

(** [left.merge(right, how="inner", left_on=key, right_on=key)]: every
    pair of a left and a right row with equal keys, in the order of the
    left rows (which are grouped by key wherever the dataset merges) and
    then of the right rows. *)
Definition merge_inner {A B} (key_l : A -> nat) (key_r : B -> nat)
    (left : list A) (right : list B) : list (A * B) :=
  a ← left; b ← filter (fun b => key_r b = key_l a) right; [(a, b)].

(** ** The steps of [get_df] *)

(** A row of [ratings_with_median]: [movie_id, median_rating, user_id]. *)
Record median_row : Type := MedianRow {
  md_movie_id : nat;
  md_median_rating : Q;
  md_user_id : nat;
}.

Definition ratings_of (ratings_df : list rating_row) (m : nat) : list Z :=
  rt_rating <$> filter (fun r => rt_movie_id r = m) ratings_df.

(** [groupby("movie_id")[["rating"]].median().reset_index()], merged back
    on the ratings; [rating_y] dropped, [rating_x] named
    [median_rating]. *)
Definition replace_ratings_with_median_ratings (ratings_df : list rating_row)
    : list median_row :=
  let medians :=
    (fun m => (m, median (ratings_of ratings_df m)))
      <$> groupby_keys (rt_movie_id <$> ratings_df) in
  (fun p : (nat * Q) * rating_row =>
     MedianRow p.1.1 p.1.2 (rt_user_id p.2))
    <$> merge_inner fst rt_movie_id medians ratings_df.

(** [groupby("movie_id")["median_rating"].count().reset_index()] *)
Definition get_rating_counts (ratings_with_median : list median_row)
    : list (nat * nat) :=
  (fun m => (m, length (filter (fun r => md_movie_id r = m)
                               ratings_with_median)))
    <$> groupby_keys (md_movie_id <$> ratings_with_median).

(** [ratings_with_median.merge(ratings_with_count)]: each row with the
    count of its movie ([count_of_review]). *)
Definition merge_median_and_count_ratings
    (ratings_with_median : list median_row)
    (ratings_with_count : list (nat * nat)) : list (median_row * nat) :=
  (fun p : median_row * (nat * nat) => (p.1, p.2.2))
    <$> merge_inner md_movie_id fst ratings_with_median ratings_with_count.

(** [get_movie_titles_df]: the title rows that have a year. *)
Definition get_movie_titles_df (d : disk) (ds : BingeDataset)
    : io_result (list title_row) :=
  match read_titles d !! movie_titles_address ds with
  | None => FileNotFound (movie_titles_address ds)
  | Some movie_titles =>
      Done (filter (fun t => is_Some (year_of_publication t)) movie_titles)
  end.

(** A row of the data frame [get_df] returns, after [change_types]: the
    integer columns are int32, the float columns float32.  The two title
    columns are carried along and not read by the recommender; they are
    left out. *)
Record binge_row : Type := BingeRow {
  b_movie_id : Z;
  b_median_rating : Q;
  b_user_id : Z;
  b_count_of_review : Z;
  b_score : Q;
}.

(** The score column and [change_types], on one row of the merge with
    the titles. *)
Definition scored_row (p : (median_row * nat) * title_row) : binge_row :=
  let median_rating := md_median_rating p.1.1 in
  let count_of_review := p.1.2 in
  {| b_movie_id := wrap 32 (Z.of_nat (md_movie_id p.1.1));
     b_median_rating := median_rating;
     b_user_id := wrap 32 (Z.of_nat (md_user_id p.1.1));
     b_count_of_review := wrap 32 (Z.of_nat count_of_review);
     b_score := (median_rating * inject_Z (Z.of_nat count_of_review))%Q |}.

Definition get_df (d : disk) (ds : BingeDataset) : io_result (list binge_row) :=
  ratings_df ← get_cleaned_ratings d ds;
  let ratings_with_median := replace_ratings_with_median_ratings ratings_df in
  let ratings_with_count := get_rating_counts ratings_with_median in
  let rating_final_df :=
    merge_median_and_count_ratings ratings_with_median ratings_with_count in
  movie_titles_final ← get_movie_titles_df d ds;
  Done (scored_row
          <$> merge_inner (fun p : median_row * nat => md_movie_id p.1)
                          title_movie_id rating_final_df movie_titles_final).

(** The popularity score of a movie: the median of its ratings times
    their number. *)
Definition movie_score (ratings_df : list rating_row) (m : nat) : Q :=
  (median (ratings_of ratings_df m)
   * inject_Z (Z.of_nat (length (ratings_of ratings_df m))))%Q.

(** The columns of the data frame that the recommender reads (the movie
    ids are below 2^31 wherever this is used, so that the cast to int32
    has left them as they were). *)
Definition as_DataFrame (rows : list binge_row) : DataFrame :=
  (fun b => DfRow (Z.to_nat (b_movie_id b)) (b_score b)) <$> rows.

(** A movie with a rating, a movie with a title row that has a year, and
    movie ids that an int32 column holds unchanged. *)
Definition rated (ratings_df : list rating_row) (m : nat) : Prop :=
  exists r, r ∈ ratings_df /\ rt_movie_id r = m.

Definition titled (movie_titles : list title_row) (m : nat) : Prop :=
  exists t, t ∈ movie_titles /\ title_movie_id t = m /\
            is_Some (year_of_publication t).

Definition ids_fit_int32 (ratings_df : list rating_row) : Prop :=
  forall r, r ∈ ratings_df -> (Z.of_nat (rt_movie_id r) < 2 ^ 31)%Z.

(** The rows of one movie in [ratings_with_median]. *)
Definition median_block (ratings_df : list rating_row) (m : nat)
    : list median_row :=
  (fun r => MedianRow m (median (ratings_of ratings_df m)) (rt_user_id r))
    <$> filter (fun r => rt_movie_id r = m) ratings_df.

(** The row [get_df] makes of a rating and a title of its movie. *)
Definition df_row_of (ratings_df : list rating_row) (r : rating_row)
    : binge_row :=
  {| b_movie_id := wrap 32 (Z.of_nat (rt_movie_id r));
     b_median_rating := median (ratings_of ratings_df (rt_movie_id r));
     b_user_id := wrap 32 (Z.of_nat (rt_user_id r));
     b_count_of_review :=
       wrap 32 (Z.of_nat (length (ratings_of ratings_df (rt_movie_id r))));
     b_score := movie_score ratings_df (rt_movie_id r) |}.

(** A small dataset to run the examples on: two rating files are read
    (the third number is the bound of the range), movie 9 has no title
    and movie 2 a title without a year. *)
Definition example_dataset : BingeDataset :=
  {| rating_address_template := "dataset/rating_x.csv";
     NUMBER_OF_RATING_ADDRESSES := 3;
     movie_titles_address := "dataset/movie_titles.csv" |}.

Definition example_ratings : list rating_row :=
  [RatingRow 7 1 3; RatingRow 2 1 4; RatingRow 7 2 4; RatingRow 9 2 5;
   RatingRow 5 0 2].

Definition example_titles : list title_row :=
  [TitleRow 7 (Some 1999%Z) "Seven"; TitleRow 2 None "Two";
   TitleRow 5 (Some 2001%Z) "Five"].

Definition example_disk : disk :=
  Disk {[ "dataset/rating_1.csv" :=
            [RawRating 7 1 "2005-09-06" 3; RawRating 2 1 "2005-09-06" 4];
          "dataset/rating_2.csv" :=
            [RawRating 7 2 "2005-09-07" 4; RawRating 9 2 "2005-09-07" 5;
             RawRating 5 0 "2005-09-08" 2] ]}
       {[ "dataset/movie_titles.csv" := example_titles ]}.

Definition example_rows : list binge_row :=
  [BingeRow 5 2 0 1 (2 * inject_Z 1);
   BingeRow 7 (7 # 2) 1 2 ((7 # 2) * inject_Z 2);
   BingeRow 7 (7 # 2) 2 2 ((7 # 2) * inject_Z 2)].

(** ** [RecommenderSystem.__init__] *)

Definition init {Model} (d : disk) (fs : gmap string (file Model))
    (binge_dataset : BingeDataset) (model_save_address : string)
    : io_result (RecommenderSystem Model) :=
  df ← get_df d binge_dataset;
  sparse_matrix ← get_sparse_from_files d binge_dataset;
  model ← of_result (load_model fs model_save_address);
  Done {| df := as_DataFrame df;
          sparse_matrix := sparse_matrix;
          model_save_address := model_save_address;
          model := model;
          test_score := None |}.

(** The recommender built on the example dataset, with no model file. *)
Definition example_system : RecommenderSystem FactorModel :=
  {| df := as_DataFrame example_rows;
     sparse_matrix :=
       CsrMatrix 10 [ {[ 5 := 2%Z ]}; {[ 7 := 3%Z; 2 := 4%Z ]};
                      {[ 7 := 4%Z; 9 := 5%Z ]} ];
     model_save_address := "./models/als_recommender_model.npz";
     model := None;
     test_score := None |}.

(** * Properties *)

(** ** Rationals and results *)

Local Open Scope Q_scope.

Lemma Qltb_lt x y : Qltb x y = true <-> x < y.
Proof.
  unfold Qltb. rewrite negb_true_iff. split.
  - intros H. apply Qnot_le_lt. intros Hle.
    apply Qle_bool_iff in Hle. congruence.
  - intros H. destruct (Qle_bool y x) eqn:E; [|reflexivity].
    apply Qle_bool_iff in E. exfalso. lra.
Qed.

Lemma Qltb_ge x y : Qltb x y = false <-> y <= x.
Proof.
  unfold Qltb. rewrite negb_false_iff. apply Qle_bool_iff.
Qed.

Lemma Qeq_bool_false x y : Qeq_bool x y = false <-> ~ x == y.
Proof.
  split.
  - intros H E. apply Qeq_bool_iff in E. congruence.
  - intros H. destruct (Qeq_bool x y) eqn:E; [|reflexivity].
    apply Qeq_bool_iff in E. contradiction.
Qed.

(** ** Rounding to float32 *)

Lemma round_half_even_error x :
  Qabs (inject_Z (round_half_even x) - x) <= 1 # 2.
Proof.
  unfold round_half_even.
  pose proof (Qfloor_le x) as Hlo. pose proof (Qlt_floor x) as Hhi.
  rewrite inject_Z_plus in Hhi. change (inject_Z 1) with 1 in Hhi.
  assert (Hup : Qabs (inject_Z (Qfloor x + 1) - x) <= 1 # 2
                <-> 1 # 2 <= x - inject_Z (Qfloor x)).
  { rewrite inject_Z_plus. change (inject_Z 1) with 1.
    split; [apply Qabs_case | intros; apply Qabs_case]; intros; lra. }
  assert (Hdown : Qabs (inject_Z (Qfloor x) - x) <= 1 # 2
                  <-> x - inject_Z (Qfloor x) <= 1 # 2).
  { split; [apply Qabs_case | intros; apply Qabs_case]; intros; lra. }
  destruct (Qcompare_spec (x - inject_Z (Qfloor x)) (1 # 2)) as [E|E|E].
  - destruct (Z.even (Qfloor x)); [apply Hdown | apply Hup]; lra.
  - apply Hdown. lra.
  - apply Hup. lra.
Qed.

Lemma round_half_even_Z z : round_half_even (inject_Z z) = z.
Proof.
  unfold round_half_even. rewrite Qfloor_Z.
  destruct (Qcompare_spec (inject_Z z - inject_Z z) (1 # 2)) as [E|E|E].
  - exfalso. lra.
  - reflexivity.
  - exfalso. lra.
Qed.

Lemma round_half_even_bounds x :
  (Qfloor x <= round_half_even x <= Qfloor x + 1)%Z.
Proof.
  unfold round_half_even.
  destruct (Qcompare (x - inject_Z (Qfloor x)) (1 # 2));
    [destruct (Z.even (Qfloor x))| |]; lia.
Qed.

Lemma round_half_even_mono x y :
  x <= y -> (round_half_even x <= round_half_even y)%Z.
Proof.
  intros Hxy.
  pose proof (Qfloor_resp_le x y Hxy) as Hfl.
  pose proof (round_half_even_bounds x) as Hx.
  pose proof (round_half_even_bounds y) as Hy.
  destruct (Z.eq_dec (Qfloor x) (Qfloor y)) as [E|E].
  - unfold round_half_even. rewrite <- E.
    destruct (Qcompare_spec (x - inject_Z (Qfloor x)) (1 # 2)) as [Ex|Ex|Ex];
      destruct (Qcompare_spec (y - inject_Z (Qfloor x)) (1 # 2)) as [Ey|Ey|Ey];
      try (destruct (Z.even (Qfloor x))); try lia; exfalso; lra.
  - lia.
Qed.

Lemma ratio_bounds A B N D :
  0 < A -> 0 < B -> A <= N -> N < 2 * A -> B <= D -> D < 2 * B ->
  A / B / 2 <= N / D /\ N / D < 2 * (A / B).
Proof.
  intros HA HB HAN HNA HBD HDB.
  assert (HD : 0 < D) by lra.
  split.
  - apply Qle_shift_div_l; [exact HD|].
    assert (E : A / B / 2 * D == A * D / (2 * B)) by (field; lra).
    rewrite E. apply Qle_shift_div_r; [lra|]. nra.
  - apply Qlt_shift_div_r; [exact HD|].
    assert (E : 2 * (A / B) * D == 2 * A * D / B) by (field; lra).
    rewrite E. apply Qlt_shift_div_l; [exact HB|]. nra.
Qed.

Lemma Qpower2_pos e : 0 < 2 ^ e.
Proof. apply Qpower_0_lt. reflexivity. Qed.

Lemma Qpower2_succ e : 2 ^ (e + 1) == 2 * 2 ^ e.
Proof. rewrite Qpower_plus by discriminate. change (2 ^ 1) with 2. ring. Qed.

Lemma Qpower2_pred e : 2 ^ (e - 1) == 2 ^ e / 2.
Proof.
  rewrite Qpower_minus by discriminate. change (2 ^ 1) with 2. reflexivity.
Qed.

Lemma Zlog2_Qpower n :
  (0 < n)%Z -> 2 ^ Z.log2 n <= inject_Z n /\ inject_Z n < 2 * 2 ^ Z.log2 n.
Proof.
  intros Hn. destruct (Z.log2_spec n Hn) as [Hlo Hhi].
  pose proof (Z.log2_nonneg n) as Hnn.
  rewrite <- Qpower2_succ.
  change 2 with (inject_Z 2).
  rewrite <- !Zpower_Qpower by lia.
  rewrite <- Zle_Qle, <- Zlt_Qlt. unfold Z.succ in Hhi. auto.
Qed.

(** [Qlog2] is the binary exponent of a positive rational. *)
Lemma Qlog2_spec q :
  0 < q -> 2 ^ Qlog2 q <= q /\ q < 2 ^ (Qlog2 q + 1).
Proof.
  intros Hq. destruct q as [n d]. unfold Qlog2. cbn [Qnum Qden].
  assert (Hn : (0 < n)%Z).
  { unfold Qlt in Hq. simpl in Hq. lia. }
  set (k := (Z.log2 n - Z.log2 (Z.pos d))%Z).
  destruct (Zlog2_Qpower n Hn) as [HAN HNA].
  destruct (Zlog2_Qpower (Z.pos d) eq_refl) as [HBD HDB].
  pose proof (ratio_bounds _ _ _ _ (Qpower2_pos _) (Qpower2_pos _)
                HAN HNA HBD HDB) as [Hlo Hhi].
  rewrite <- Qmake_Qdiv in Hlo, Hhi.
  rewrite <- Qpower_minus in Hlo, Hhi by discriminate. fold k in Hlo, Hhi.
  destruct (Qle_bool (2 ^ k) (n # d)) eqn:E.
  - apply Qle_bool_iff in E. rewrite Qpower2_succ. split; assumption.
  - rewrite Qpower2_pred. split; [exact Hlo|].
    replace (k - 1 + 1)%Z with k by lia.
    apply Qnot_le_lt. intros H. apply Qle_bool_iff in H. congruence.
Qed.

Lemma Qlog2_mono x y : 0 < x -> x <= y -> (Qlog2 x <= Qlog2 y)%Z.
Proof.
  intros Hx Hxy.
  destruct (Qlog2_spec x Hx) as [Hlo _].
  destruct (Qlog2_spec y) as [_ Hhi]; [lra|].
  assert (H : 2 ^ Qlog2 x < 2 ^ (Qlog2 y + 1)) by lra.
  apply Qpower_lt_compat_l_inv in H; [lia | reflexivity].
Qed.

Lemma ulp32_pos a : 0 < ulp32 a.
Proof. apply Qpower2_pos. Qed.

Lemma Qpower2_23 e : 2 ^ e == 8388608 * 2 ^ (e - 23).
Proof.
  replace e with ((e - 23) + 23)%Z at 1 by lia.
  rewrite Qpower_plus by discriminate.
  change (2 ^ 23) with 8388608. ring.
Qed.

(** The significand of a positive rational lies in [2^23, 2^24). *)
Lemma significand_bounds a :
  0 < a -> 8388608 <= a / ulp32 a /\ a / ulp32 a < 16777216.
Proof.
  intros Ha. destruct (Qlog2_spec a Ha) as [Hlo Hhi].
  pose proof (ulp32_pos a) as Hu. unfold ulp32 in *.
  rewrite Qpower2_succ, Qpower2_23 in Hhi. rewrite Qpower2_23 in Hlo.
  split.
  - apply Qle_shift_div_l; [exact Hu | exact Hlo].
  - apply Qlt_shift_div_r; [exact Hu | lra].
Qed.

Lemma round24_unfold a :
  round24 a = inject_Z (round_half_even (a / ulp32 a)) * ulp32 a.
Proof. reflexivity. Qed.

Lemma rounded_significand_bounds a :
  0 < a ->
  8388608 <= inject_Z (round_half_even (a / ulp32 a)) /\
  inject_Z (round_half_even (a / ulp32 a)) <= 16777216.
Proof.
  intros Ha. destruct (significand_bounds a Ha) as [Hlo Hhi].
  split.
  - change 8388608 with (inject_Z 8388608). rewrite <- Zle_Qle.
    rewrite <- (round_half_even_Z 8388608).
    apply round_half_even_mono. exact Hlo.
  - change 16777216 with (inject_Z 16777216). rewrite <- Zle_Qle.
    rewrite <- (round_half_even_Z 16777216).
    apply round_half_even_mono. apply Qlt_le_weak. exact Hhi.
Qed.

(** The rounded value stays in the binade of its argument. *)
Lemma round24_bounds a :
  0 < a -> 2 ^ Qlog2 a <= round24 a /\ round24 a <= 2 ^ (Qlog2 a + 1).
Proof.
  intros Ha. destruct (rounded_significand_bounds a Ha) as [Hlo Hhi].
  pose proof (ulp32_pos a) as Hu.
  rewrite round24_unfold, Qpower2_succ, Qpower2_23. fold (ulp32 a).
  split; nra.
Qed.

Lemma round24_pos a : 0 < a -> 0 < round24 a.
Proof.
  intros Ha. destruct (round24_bounds a Ha) as [Hlo _].
  pose proof (Qpower2_pos (Qlog2 a)). lra.
Qed.

(** Rounding to 24 bits moves a value by at most [2^-24] of itself. *)
Lemma round24_error a :
  0 < a -> Qabs (round24 a - a) <= a * (1 # 16777216).
Proof.
  intros Ha. destruct (significand_bounds a Ha) as [Hlo _].
  pose proof (ulp32_pos a) as Hu.
  pose proof (round_half_even_error (a / ulp32 a)) as Herr.
  rewrite round24_unfold.
  remember (ulp32 a) as u eqn:Eu. clear Eu.
  remember (inject_Z (round_half_even (a / u))) as m eqn:Em. clear Em.
  assert (Ea : a == a / u * u) by (field; lra).
  remember (a / u) as s eqn:Es. clear Es.
  assert (E : m * u - a == (m - s) * u) by (rewrite Ea; ring).
  rewrite E, Qabs_Qmult, (Qabs_pos u) by lra.
  assert (H1 : Qabs (m - s) * u <= (1 # 2) * u) by nra.
  assert (H2 : (1 # 2) * u <= s * u * (1 # 16777216)) by nra.
  rewrite Ea. lra.
Qed.

Lemma round24_mono x y : 0 < x -> x <= y -> round24 x <= round24 y.
Proof.
  intros Hx Hxy. assert (Hy : 0 < y) by lra.
  pose proof (Qlog2_mono x y Hx Hxy) as He.
  destruct (Z.eq_dec (Qlog2 x) (Qlog2 y)) as [E|E].
  - rewrite !round24_unfold. unfold ulp32. rewrite E.
    pose proof (Qpower2_pos (Qlog2 y - 23)) as Hu.
    assert (Hs : x / 2 ^ (Qlog2 y - 23) <= y / 2 ^ (Qlog2 y - 23)).
    { apply Qle_shift_div_l; [exact Hu|].
      assert (Ex : x / 2 ^ (Qlog2 y - 23) * 2 ^ (Qlog2 y - 23) == x)
        by (field; lra).
      rewrite Ex. exact Hxy. }
    apply round_half_even_mono in Hs. rewrite Zle_Qle in Hs. nra.
  - destruct (round24_bounds x Hx) as [_ Hhi].
    destruct (round24_bounds y Hy) as [Hlo _].
    assert (Hpow : 2 ^ (Qlog2 x + 1) <= 2 ^ Qlog2 y).
    { apply Qpower_le_compat_l; [lia | discriminate]. }
    lra.
Qed.

Lemma round32_zero q : q == 0 -> round32 q = Finite 0.
Proof.
  intros H. unfold round32.
  apply Qeq_bool_iff in H. rewrite H. reflexivity.
Qed.

Lemma Qabs_pos_lt q : ~ q == 0 -> 0 < Qabs q.
Proof.
  intros H. pose proof (Qabs_nonneg q) as Hge.
  apply Qle_lteq in Hge as [Hlt | Heq]; [exact Hlt|].
  exfalso. apply H. revert Heq. apply Qabs_case; intros; lra.
Qed.

(** A positive number rounds to a positive Python float. *)
Lemma round53_pos a : 0 < a -> 0 < round53 a.
Proof.
  intros Ha. destruct (Qlog2_spec a Ha) as [Hlo _].
  assert (Hu : 0 < ulp64 a) by apply Qpower2_pos.
  assert (Hs : 1 <= a / ulp64 a).
  { apply Qle_shift_div_l; [exact Hu|].
    assert (Hpow : 2 ^ (Qlog2 a - 52) <= 2 ^ Qlog2 a).
    { apply Qpower_le_compat_l; [lia | discriminate]. }
    unfold ulp64. lra. }
  apply round_half_even_mono in Hs.
  change 1 with (inject_Z 1) in Hs. rewrite round_half_even_Z in Hs.
  rewrite Zle_Qle in Hs. change (inject_Z 1) with 1 in Hs.
  unfold round53. nra.
Qed.

Lemma float64_pos q : 0 < q -> 0 < float64 q.
Proof.
  intros Hq. unfold float64.
  assert (E0 : Qeq_bool q 0 = false) by (apply Qeq_bool_false; lra).
  assert (En : Qneg q = false) by (apply Qltb_ge; lra).
  rewrite E0, En. apply round53_pos, Qabs_pos_lt. lra.
Qed.

(** What [round32] returns: a value within [2^-24] of its argument,
    relatively, with the same sign, and an infinity only for an argument
    of magnitude [2^127] at least. *)
Lemma round32_spec q :
  match round32 q with
  | Finite r =>
      Qabs (r - q) <= Qabs q * (1 # 16777216) /\
      (0 <= q -> 0 <= r) /\ (q <= 0 -> r <= 0) /\ (~ q == 0 -> ~ r == 0)
  | Infinity s => s = Qneg q /\ 2 ^ 127 <= Qabs q
  | NaN => False
  end.
Proof.
  unfold round32. destruct (Qeq_bool q 0) eqn:E0.
  - apply Qeq_bool_iff in E0.
    assert (E : 0 - q == 0) by lra. rewrite E.
    change (Qabs 0) with 0.
    pose proof (Qabs_nonneg q).
    repeat split; try lra; intros H'; contradiction.
  - apply Qeq_bool_false in E0.
    pose proof (Qabs_pos_lt q E0) as Ha.
    pose proof (round24_error (Qabs q) Ha) as Herr.
    pose proof (round24_pos (Qabs q) Ha) as Hv.
    set (v := round24 (Qabs q)) in *.
    destruct (Qle_bool (2 ^ 128) v) eqn:Ebig.
    + split; [reflexivity|]. apply Qle_bool_iff in Ebig.
      change (2 ^ 128) with (2 * 2 ^ 127) in Ebig.
      pose proof (Qpower2_pos 127) as Hp.
      revert Herr. apply Qabs_case; intros; lra.
    + unfold Qneg. destruct (Qltb q 0) eqn:Eneg.
      * apply Qltb_lt in Eneg.
        assert (Eabs : Qabs q == - q) by (apply Qabs_neg; lra).
        assert (E : - v - q == - (v - Qabs q)) by (rewrite Eabs; ring).
        rewrite E, Qabs_opp. repeat split; try lra.
      * apply Qltb_ge in Eneg.
        assert (Eabs : Qabs q == q) by (apply Qabs_pos; lra).
        assert (E : v - q == v - Qabs q) by (rewrite Eabs; ring).
        rewrite E. repeat split; try lra.
Qed.

Lemma round32_nonzero q : ~ q == 0 -> f_nonzero (round32 q).
Proof.
  intros Hq. pose proof (round32_spec q) as Hs.
  destruct (round32 q) as [r|s|]; simpl; [apply Hs, Hq | exact I | exact Hs].
Qed.

(** A value below [2^127] in magnitude rounds to a finite float. *)
Lemma round32_finite q :
  Qabs q < 2 ^ 127 -> exists r, round32 q = Finite r.
Proof.
  intros Hq. pose proof (round32_spec q) as Hs.
  destruct (round32 q) as [r|s|]; [eauto | | contradiction].
  destruct Hs as [_ Hbig]. exfalso. lra.
Qed.

(** Rounding is monotone (stated for the thresholds, which are not
    negative). *)
Lemma round32_mono t' t r :
  0 <= t' -> t' <= t -> round32 t = Finite r ->
  exists r', round32 t' = Finite r' /\ 0 <= r' /\ r' <= r.
Proof.
  intros H0 Hle Ht.
  destruct (Qeq_bool t' 0) eqn:E0.
  - exists 0. unfold round32. rewrite E0.
    split; [reflexivity|]. split; [lra|].
    pose proof (round32_spec t) as Hs. rewrite Ht in Hs. apply Hs. lra.
  - pose proof (proj1 (Qeq_bool_false _ _) E0) as Hne.
    assert (Hpos' : 0 < t') by lra. assert (Hpos : 0 < t) by lra.
    assert (Ht0 : Qeq_bool t 0 = false) by (apply Qeq_bool_false; lra).
    assert (Hn' : Qneg t' = false) by (apply Qltb_ge; lra).
    assert (Hn : Qneg t = false) by (apply Qltb_ge; lra).
    assert (Hmono : round24 (Qabs t') <= round24 (Qabs t)).
    { apply round24_mono.
      - apply Qabs_pos_lt. lra.
      - rewrite !Qabs_pos by lra. exact Hle. }
    pose proof (round24_pos (Qabs t') (Qabs_pos_lt t' Hne)) as Hv'.
    unfold round32 in *. rewrite E0. rewrite Ht0 in Ht.
    rewrite Hn'. rewrite Hn in Ht.
    destruct (Qle_bool (2 ^ 128) (round24 (Qabs t))) eqn:Ebig; [discriminate|].
    injection Ht as <-.
    destruct (Qle_bool (2 ^ 128) (round24 (Qabs t'))) eqn:Ebig'.
    + exfalso. apply Qle_bool_iff in Ebig'.
      assert (H : Qle_bool (2 ^ 128) (round24 (Qabs t)) = true)
        by (apply Qle_bool_iff; lra).
      congruence.
    + eexists. split; [reflexivity|]. split; [lra | exact Hmono].
Qed.

(** The threshold test of [compare_movies] lets exactly [0..100] pass. *)
Lemma threshold_ok t :
  0 <= t <= 100 -> Qltb 100 t || Qltb t 0 = false.
Proof.
  intros [H0 H100]. apply orb_false_iff. split; apply Qltb_ge; assumption.
Qed.

Lemma threshold_bad t :
  ~ 0 <= t <= 100 -> Qltb 100 t || Qltb t 0 = true.
Proof.
  intros H. destruct (Qltb 100 t || Qltb t 0) eqn:E; [reflexivity|].
  apply orb_false_iff in E as [E1%Qltb_ge E2%Qltb_ge]. tauto.
Qed.

(** ** [compare_movies] *)

(** A threshold outside [0, 100] is refused before any lookup. *)
Lemma compare_movies_bad_threshold df a b t :
  ~ 0 <= t <= 100 -> compare_movies df a b t = Raise ValueError.
Proof.
  intros Ht. unfold compare_movies. rewrite (threshold_bad t Ht). reflexivity.
Qed.

(** With both movies found and an admissible threshold, the answer is
    the float comparison of the source. *)
Lemma compare_movies_found df a b t sa sb :
  iloc0 (loc_score df a) = Ok sa ->
  iloc0 (loc_score df b) = Ok sb ->
  0 <= t <= 100 ->
  compare_movies df a b t = Ok (f_gt (difference_by_percentage sa sb) t).
Proof.
  intros Ha Hb Ht. unfold compare_movies.
  rewrite (threshold_ok t Ht), Ha, Hb. reflexivity.
Qed.

(** *** The float that is compared *)

Lemma f_div_finite x sa :
  ~ sa == 0 -> f_div (Finite x) (Finite sa) = round32 (x / sa).
Proof.
  intros Hsa. unfold f_div. apply Qeq_bool_false in Hsa. rewrite Hsa.
  reflexivity.
Qed.

Lemma f_mul_100_inf s : f_mul (Infinity s) (Finite 100) = Infinity s.
Proof. destruct s; reflexivity. Qed.

(** Equal scores: the percentage is zero. *)
Lemma difference_by_percentage_equal sa sb :
  sa == sb -> ~ sa == 0 -> difference_by_percentage sa sb = Finite 0.
Proof.
  intros Heq Hsa. unfold difference_by_percentage. cbn [f_sub].
  rewrite (round32_zero (sa - sb)) by lra.
  rewrite (f_div_finite 0 sa Hsa).
  rewrite (round32_zero (0 / sa)) by (field; exact Hsa).
  reflexivity.
Qed.

(** Different scores: the percentage is not zero (it may be infinite). *)
Lemma difference_by_percentage_differ sa sb :
  ~ sa == sb -> ~ sa == 0 ->
  (exists z, difference_by_percentage sa sb = Finite z /\ 0 < z) \/
  difference_by_percentage sa sb = Infinity false.
Proof.
  intros Hne Hsa. unfold difference_by_percentage. cbn [f_sub].
  assert (Hd : ~ sa - sb == 0) by lra.
  pose proof (round32_nonzero _ Hd) as Hx.
  destruct (round32 (sa - sb)) as [x|s|]; [| |contradiction].
  - cbn [f_nonzero] in Hx. rewrite (f_div_finite x sa Hsa).
    assert (Hq : ~ x / sa == 0).
    { intros E. apply Hx.
      assert (E' : x == x / sa * sa) by (field; exact Hsa).
      rewrite E' , E. ring. }
    pose proof (round32_nonzero _ Hq) as Hy.
    destruct (round32 (x / sa)) as [y|s|]; [| |contradiction].
    + cbn [f_nonzero] in Hy. cbn [f_mul].
      assert (Hm : ~ y * 100 == 0) by lra.
      pose proof (round32_nonzero _ Hm) as Hz.
      destruct (round32 (y * 100)) as [z|s|]; [| |contradiction].
      * left. exists (Qabs z). split; [reflexivity|].
        apply Qabs_pos_lt, Hz.
      * right. reflexivity.
    + right. rewrite f_mul_100_inf. reflexivity.
  - right. cbn [f_div]. rewrite f_mul_100_inf. reflexivity.
Qed.

(** A first score of zero: the quotient is an infinity, or a NaN when
    the second score is zero as well. *)
Lemma difference_by_percentage_zero sa sb :
  sa == 0 ->
  difference_by_percentage sa sb
  = if Qeq_bool sb 0 then NaN else Infinity false.
Proof.
  intros Hsa. unfold difference_by_percentage. cbn [f_sub].
  assert (E0 : Qeq_bool sa 0 = true) by (apply Qeq_bool_iff, Hsa).
  destruct (Qeq_bool sb 0) eqn:Esb.
  - apply Qeq_bool_iff in Esb.
    rewrite (round32_zero (sa - sb)) by lra.
    unfold f_div. rewrite E0. reflexivity.
  - apply Qeq_bool_false in Esb.
    assert (Hd : ~ sa - sb == 0) by lra.
    pose proof (round32_nonzero _ Hd) as Hx.
    destruct (round32 (sa - sb)) as [x|s|]; [| |contradiction].
    + cbn [f_nonzero] in Hx. apply Qeq_bool_false in Hx.
      unfold f_div. rewrite E0, Hx. rewrite f_mul_100_inf. reflexivity.
    + cbn [f_div]. rewrite f_mul_100_inf. reflexivity.
Qed.

(** *** The comparison with the threshold *)

(** A threshold in [0, 100] is a finite float that is not negative. *)
Lemma round32_threshold t :
  0 <= t <= 100 ->
  exists r, round32 t = Finite r /\ 0 <= r /\
            t * (1 - (1 # 16777216)) <= r <= t * (1 + (1 # 16777216)).
Proof.
  intros [H0 H100].
  destruct (round32_finite t) as [r Hr].
  { rewrite Qabs_pos by exact H0.
    change (2 ^ 127) with 170141183460469231731687303715884105728. lra. }
  exists r. split; [exact Hr|].
  pose proof (round32_spec t) as Hs. rewrite Hr in Hs.
  destruct Hs as (Herr & Hpos & _ & _).
  rewrite (Qabs_pos t) in Herr by exact H0.
  split; [apply Hpos, H0|].
  revert Herr. apply Qabs_case; intros; lra.
Qed.

Lemma f_gt_zero_false t : 0 <= t <= 100 -> f_gt (Finite 0) t = false.
Proof.
  intros Ht. destruct (round32_threshold t Ht) as (r & Hr & Hpos & _).
  unfold f_gt. rewrite Hr. apply Qltb_ge. exact Hpos.
Qed.

Lemma f_gt_inf_true t : 0 <= t <= 100 -> f_gt (Infinity false) t = true.
Proof.
  intros Ht. destruct (round32_threshold t Ht) as (r & Hr & _).
  unfold f_gt. rewrite Hr. reflexivity.
Qed.

Lemma f_gt_positive z : 0 < z -> f_gt (Finite z) 0 = true.
Proof. intros Hz. cbn. apply Qltb_lt. exact Hz. Qed.

(** *** The rounding error of the percentage *)

Lemma round32_relative q :
  match round32 q with
  | Finite r =>
      Qabs q * (1 - (1 # 16777216)) <= Qabs r /\
      Qabs r <= Qabs q * (1 + (1 # 16777216))
  | Infinity _ => 2 ^ 127 <= Qabs q
  | NaN => False
  end.
Proof.
  pose proof (round32_spec q) as Hs.
  destruct (round32 q) as [r|s|]; [|apply Hs|exact Hs].
  destruct Hs as (Herr & _).
  revert Herr. apply (Qabs_case (r - q)); apply (Qabs_case q);
    apply (Qabs_case r); intros; lra.
Qed.

Lemma Qabs_div x y : ~ y == 0 -> Qabs (x / y) == Qabs x / Qabs y.
Proof.
  intros Hy. unfold Qdiv. rewrite Qabs_Qmult, Qabs_Qinv. reflexivity.
Qed.

(** The float compared with the threshold is within three roundings of
    the exact percentage [|sa - sb| / |sa| * 100], unless an operation
    overflowed: then it is an infinity, and the difference of the scores
    or the percentage is beyond any score or threshold. *)
Lemma difference_by_percentage_error sa sb :
  ~ sa == 0 ->
  match difference_by_percentage sa sb with
  | Finite z =>
      Qabs (sa - sb) / Qabs sa * 100 * (1 - (3 # 16777216)) <= z /\
      z <= Qabs (sa - sb) / Qabs sa * 100 * (1 + (4 # 16777216))
  | Infinity negative =>
      negative = false /\
      (2 ^ 127 <= Qabs (sa - sb) \/
       2 ^ 126 <= Qabs (sa - sb) / Qabs sa * 100)
  | NaN => False
  end.
Proof.
  intros Hsa. unfold difference_by_percentage. cbn [f_sub].
  pose proof (Qabs_pos_lt sa Hsa) as Hpos.
  pose proof (Qabs_nonneg (sa - sb)) as Hd.
  pose proof (Qpower2_pos 126) as Hp126.
  change (2 ^ 127) with (2 * 2 ^ 126).
  pose proof (round32_relative (sa - sb)) as Hx.
  destruct (round32 (sa - sb)) as [x|s|]; [| |contradiction].
  - rewrite (f_div_finite x sa Hsa).
    pose proof (round32_relative (x / sa)) as Hy.
    pose proof (Qabs_div x sa Hsa) as Eq.
    remember (Qabs (x / sa)) as q eqn:Eq'. clear Eq'.
    remember (Qabs (sa - sb)) as d eqn:Ed. clear Ed.
    remember (Qabs sa) as a eqn:Ea. clear Ea.
    assert (Hw : d / a * (1 - (1 # 16777216)) <= q /\
                 q <= d / a * (1 + (1 # 16777216))).
    { destruct Hx as [Hlo Hhi]. rewrite Eq. split.
      - apply Qle_shift_div_l; [exact Hpos|].
        assert (E : d / a * (1 - (1 # 16777216)) * a
                    == d * (1 - (1 # 16777216))) by (field; lra).
        rewrite E. exact Hlo.
      - apply Qle_shift_div_r; [exact Hpos|].
        assert (E : d / a * (1 + (1 # 16777216)) * a
                    == d * (1 + (1 # 16777216))) by (field; lra).
        rewrite E. exact Hhi. }
    assert (Hw0 : 0 <= d / a).
    { apply Qle_shift_div_l; [exact Hpos | lra]. }
    remember (d / a) as w eqn:Ew. clear Ew.
    destruct (round32 (x / sa)) as [y|s|]; [| |contradiction].
    + cbn [f_mul].
      pose proof (round32_relative (y * 100)) as Hz.
      pose proof (Qabs_Qmult y 100) as Em.
      change (Qabs 100) with 100 in Em.
      remember (Qabs (y * 100)) as m eqn:Em'. clear Em'.
      destruct (round32 (y * 100)) as [z|s|]; [| |contradiction].
      * cbn [f_abs]. rewrite Em in Hz. split; nra.
      * cbn [f_abs]. rewrite Em in Hz. split; [reflexivity|]. right. nra.
    + rewrite f_mul_100_inf. cbn [f_abs]. split; [reflexivity|].
      right. nra.
  - cbn [f_div]. rewrite f_mul_100_inf. cbn [f_abs].
    split; [reflexivity|]. left. exact Hx.
Qed.


(** Away from the threshold by the rounding margin, the rounding does
    not change the answer. *)
Lemma compare_movies_margin df a b t sa sb :
  iloc0 (loc_score df a) = Ok sa ->
  iloc0 (loc_score df b) = Ok sb ->
  0 <= t <= 100 ->
  ~ sa == 0 ->
  (t * (1 + rounding_margin) < Qabs (sa - sb) / Qabs sa * 100 ->
   compare_movies df a b t = Ok true) /\
  (Qabs sa < 2 ^ 127 ->
   Qabs (sa - sb) / Qabs sa * 100 * (1 + rounding_margin) <= t ->
   compare_movies df a b t = Ok false).
Proof.
  intros Ha Hb Ht Hsa.
  rewrite (compare_movies_found df a b t sa sb Ha Hb Ht).
  destruct (round32_threshold t Ht) as (r & Hr & Hr0 & Hrlo & Hrhi).
  pose proof (difference_by_percentage_error sa sb Hsa) as Herr.
  pose proof (Qabs_pos_lt sa Hsa) as Hpos.
  pose proof (Qabs_nonneg (sa - sb)) as Hd.
  assert (Hw0 : 0 <= Qabs (sa - sb) / Qabs sa).
  { apply Qle_shift_div_l; [exact Hpos | lra]. }
  unfold rounding_margin.
  destruct (difference_by_percentage sa sb) as [z|s|];
    [| |contradiction].
  - unfold f_gt. rewrite Hr. destruct Ht as [Ht0 Ht100]. split.
    + intros Hp. f_equal. apply Qltb_lt. nra.
    + intros _ Hp. f_equal. apply Qltb_ge. nra.
  - destruct Herr as [-> Hbig]. rewrite (f_gt_inf_true t Ht).
    split; [reflexivity|]. intros Hbound Hp. exfalso.
    pose proof (Qpower2_pos 126) as Hp126.
    change (2 ^ 127) with (2 * 2 ^ 126) in Hbig, Hbound.
    assert (H126 : 128 <= 2 ^ 126) by (vm_compute; discriminate).
    destruct Ht as [Ht0 Ht100].
    destruct Hbig as [Hbig | Hbig]; [|nra].
    assert (Hle : Qabs (sa - sb) <= Qabs sa).
    { assert (Hq : Qabs (sa - sb) / Qabs sa <= 1) by nra.
      assert (E : Qabs (sa - sb) / Qabs sa * Qabs sa == Qabs (sa - sb))
        by (field; lra).
      rewrite <- E. nra. }
    lra.
Qed.



(** C6, as the spec has it, fails: a threshold above 100 is refused
    before anything is compared. *)
Lemma compare_movies_self_above_100 :
  0 <= 101 /\ iloc0 (loc_score [DfRow 1 10] 1) = Ok 10 /\ ~ 10 == 0 /\
  compare_movies [DfRow 1 10] 1 1 101 = Raise ValueError.
Proof.
  repeat split; discriminate.
Qed.

(** C6 (amended). For a threshold in [0, 100]: a movie with a nonzero
    score compared with itself gives [False]; with threshold 0, two
    movies whose scores differ, the first nonzero, give [True]. *)
Theorem compare_movies_self_and_zero :
  (forall df a s t,
     iloc0 (loc_score df a) = Ok s -> ~ s == 0 -> 0 <= t <= 100 ->
     compare_movies df a a t = Ok false)
  /\ (forall df a b sa sb,
        iloc0 (loc_score df a) = Ok sa ->
        iloc0 (loc_score df b) = Ok sb ->
        ~ sa == 0 -> ~ sa == sb ->
        compare_movies df a b 0 = Ok true).
Proof.
  split.
  - intros df a s t Ha Hs Ht.
    rewrite (compare_movies_found df a a t s s Ha Ha Ht).
    rewrite (difference_by_percentage_equal s s (Qeq_refl s) Hs).
    rewrite (f_gt_zero_false t Ht). reflexivity.
  - intros df a b sa sb Ha Hb Hsa Hne.
    rewrite (compare_movies_found df a b 0 sa sb Ha Hb);
      [|split; discriminate].
    destruct (difference_by_percentage_differ sa sb Hne Hsa)
      as [(z & -> & Hz) | ->].
    + rewrite (f_gt_positive z Hz). reflexivity.
    + reflexivity.
Qed.

Lemma compare_movies_self_and_zero_witness :
  compare_movies [DfRow 1 10; DfRow 2 20] 1 1 5 = Ok false /\
  compare_movies [DfRow 1 10; DfRow 2 20] 1 2 0 = Ok true.
Proof.
  split.
  - apply (proj1 compare_movies_self_and_zero _ _ 10); try reflexivity.
    + discriminate.
    + split; discriminate.
  - apply (proj2 compare_movies_self_and_zero _ _ _ 10 20);
      try reflexivity; discriminate.
Defined.

(** C7, as the spec has it, fails: with a first score of zero the call
    returns a boolean ([True] against a nonzero score, [False] against a
    zero one), it raises nothing. *)
Lemma compare_movies_zero_score_returns :
  iloc0 (loc_score [DfRow 1 0; DfRow 2 5] 1) = Ok 0 /\
  compare_movies [DfRow 1 0; DfRow 2 5] 1 2 50 = Ok true /\
  compare_movies [DfRow 1 0; DfRow 2 5] 1 1 50 = Ok false.
Proof.
  repeat split.
Qed.

(** C7 (amended). When the first movie's score is zero and the threshold
    is in [0, 100], [compare_movies] raises no error: the quotient is an
    infinity or a NaN, and the answer is [True] exactly when the second
    movie's score is not zero. *)
Theorem compare_movies_zero_score df a b t sa sb :
  iloc0 (loc_score df a) = Ok sa ->
  iloc0 (loc_score df b) = Ok sb ->
  sa == 0 ->
  0 <= t <= 100 ->
  compare_movies df a b t = Ok (negb (Qeq_bool sb 0)).
Proof.
  intros Ha Hb Hsa Ht.
  rewrite (compare_movies_found df a b t sa sb Ha Hb Ht).
  rewrite (difference_by_percentage_zero sa sb Hsa).
  destruct (Qeq_bool sb 0).
  - reflexivity.
  - rewrite (f_gt_inf_true t Ht). reflexivity.
Qed.

Lemma compare_movies_zero_score_witness :
  compare_movies [DfRow 1 0; DfRow 2 5] 1 2 50 = Ok (negb (Qeq_bool 5 0)).
Proof.
  apply (compare_movies_zero_score _ _ _ _ 0 5); try reflexivity.
  split; discriminate.
Defined.

(** A movie id that is not in the data frame selects nothing. *)
Lemma loc_score_unknown df m : unknown_movie df m -> loc_score df m = [].
Proof.
  unfold unknown_movie, loc_score. induction df as [|r df IH]; intros H.
  - reflexivity.
  - rewrite filter_cons. destruct (decide (movie_id r = m)) as [E|_].
    + exfalso. apply (H r); [left | exact E].
    + apply IH. intros r' Hr'. apply H. right. exact Hr'.
Qed.

Lemma iloc0_bind_raise {A B} (l : list A) (f : A -> result B) :
  l = [] -> (iloc0 l ≫= f) = Raise IndexError.
Proof. intros ->. reflexivity. Qed.

(** C10. When a movie id given to [compare_movies] does not occur in the
    data frame, the call ends in the [IndexError] of [.iloc[0]] on an
    empty selection (for a threshold that passes the range check; the
    check comes first and raises [ValueError] otherwise): it never
    returns a boolean. *)
Theorem compare_movies_unknown_movie df a b t :
  unknown_movie df a \/ unknown_movie df b ->
  (0 <= t <= 100 -> compare_movies df a b t = Raise IndexError)
  /\ (forall answer, compare_movies df a b t <> Ok answer).
Proof.
  intros Hunknown.
  assert (Hraise : (iloc0 (loc_score df a) ≫= fun movie_one_score =>
                    iloc0 (loc_score df b) ≫= fun movie_two_score =>
                    Ok (f_gt (f_abs (f_mul (f_div
                          (f_sub (Finite movie_one_score) (Finite movie_two_score))
                          (Finite movie_one_score)) (Finite 100))) t))
                   = Raise IndexError).
  { destruct Hunknown as [Ha | Hb].
    - apply iloc0_bind_raise, loc_score_unknown, Ha.
    - destruct (iloc0 (loc_score df a)) as [sa|e] eqn:E.
      + simpl. apply iloc0_bind_raise, loc_score_unknown, Hb.
      + destruct (loc_score df a); simpl in E; [|discriminate].
        injection E as <-. reflexivity. }
  unfold compare_movies. split.
  - intros Ht. rewrite (threshold_ok t Ht). exact Hraise.
  - intros answer. destruct (Qltb 100 t || Qltb t 0); [discriminate|].
    rewrite Hraise. discriminate.
Qed.

Lemma compare_movies_unknown_movie_witness :
  compare_movies [DfRow 1 10; DfRow 2 20] 1 7 5 = Raise IndexError.
Proof.
  apply (compare_movies_unknown_movie [DfRow 1 10; DfRow 2 20] 1 7 5).
  - right. intros r Hr.
    apply elem_of_cons in Hr as [-> | Hr]; [discriminate|].
    apply elem_of_cons in Hr as [-> | Hr]; [discriminate|].
    inversion Hr.
  - split; discriminate.
Defined.

Local Close Scope Q_scope.

(** ** Fixed-width integers *)

Lemma wrap_congr bits z z' :
  (z mod 2 ^ bits = z' mod 2 ^ bits)%Z -> wrap bits z = wrap bits z'.
Proof.
  intros H. unfold wrap. f_equal.
  rewrite <- (Zplus_mod_idemp_l z), <- (Zplus_mod_idemp_l z'), H. reflexivity.
Qed.

Lemma wrap_mod bits z : (wrap bits z mod 2 ^ bits = z mod 2 ^ bits)%Z.
Proof.
  unfold wrap. rewrite Zminus_mod_idemp_l. f_equal. lia.
Qed.

Lemma wrap_add_r bits v s : wrap bits (v + wrap bits s) = wrap bits (v + s).
Proof.
  apply wrap_congr.
  rewrite <- Zplus_mod_idemp_r, wrap_mod, Zplus_mod_idemp_r. reflexivity.
Qed.

Lemma wrap32_small z : int32_range z -> wrap 32 z = z.
Proof.
  unfold int32_range, wrap. intros H.
  rewrite Z.mod_small; lia.
Qed.

Lemma wrap32_wrap64 z : wrap 32 (wrap 64 z) = wrap 32 z.
Proof.
  apply wrap_congr. unfold wrap at 1.
  rewrite (Z.mod_eq (z + 2 ^ (64 - 1)) (2 ^ 64)) by lia.
  set (q := ((z + 2 ^ (64 - 1)) / 2 ^ 64)%Z).
  replace (z + 2 ^ (64 - 1) - 2 ^ 64 * q - 2 ^ (64 - 1))%Z
    with (z + (- (2 ^ 32 * q)) * 2 ^ 32)%Z by lia.
  apply Z_mod_plus_full.
Qed.

(** ** [get_sparse] *)

Lemma foldr_add_entry_length ratings M :
  length (foldr add_entry M ratings) = length M.
Proof.
  induction ratings as [|r ratings IH]; simpl; [reflexivity|].
  unfold add_entry at 1. rewrite length_alter. exact IH.
Qed.

Lemma rating_sum_absent ratings u i :
  (u, i) ∉ rating_key <$> ratings -> rating_sum ratings u i = 0%Z.
Proof.
  induction ratings as [|r ratings IH]; simpl; intros H; [reflexivity|].
  apply not_elem_of_cons in H as [Hne Hnot].
  destruct (decide (rt_user_id r = u ∧ rt_movie_id r = i)) as [[<- <-]|_].
  - exfalso. apply Hne. reflexivity.
  - apply IH, Hnot.
Qed.

Lemma rating_sum_unique ratings r :
  NoDup (rating_key <$> ratings) -> r ∈ ratings ->
  rating_sum ratings (rt_user_id r) (rt_movie_id r) = rt_rating r.
Proof.
  induction ratings as [|r' ratings IH]; simpl; intros Hnd Hin.
  - inversion Hin.
  - apply NoDup_cons in Hnd as [Hnot Hnd].
    destruct (decide (rt_user_id r' = rt_user_id r
                      ∧ rt_movie_id r' = rt_movie_id r)) as [[Eu Ei]|Hne].
    + rewrite rating_sum_absent.
      * apply elem_of_cons in Hin as [-> | Hin]; [lia|].
        exfalso. apply Hnot. apply list_elem_of_fmap. exists r.
        split; [|exact Hin]. unfold rating_key. congruence.
      * unfold rating_key in Hnot at 1. rewrite Eu, Ei in Hnot. exact Hnot.
    + apply elem_of_cons in Hin as [-> | Hin]; [tauto|].
      apply IH; assumption.
Qed.

Lemma rating_sum_cons r ratings u i :
  rating_sum (r :: ratings) u i =
  if decide (rt_user_id r = u /\ rt_movie_id r = i)
  then (rt_rating r + rating_sum ratings u i)%Z else rating_sum ratings u i.
Proof. reflexivity. Qed.

Lemma add_entry_lookup r M u :
  add_entry r M !! u =
  if decide (rt_user_id r = u)
  then (fun row : gmap nat Z =>
          <[rt_movie_id r :=
              wrap 64 (rt_rating r + default 0 (row !! rt_movie_id r))%Z]> row)
       <$> M !! u
  else M !! u.
Proof.
  unfold add_entry. rewrite list_lookup_alter.
  destruct (decide (rt_user_id r = u)) as [->|]; reflexivity.
Qed.

(** What the coordinate constructor stores at a position: nothing when
    no rating names it, the (int64) sum of the ratings that do. *)
Lemma coo_rows_lookup ratings M u i :
  u < M ->
  exists row,
    foldr add_entry (replicate M ∅) ratings !! u = Some row /\
    row !! i = if decide ((u, i) ∈ rating_key <$> ratings)
               then Some (wrap 64 (rating_sum ratings u i)) else None.
Proof.
  intros Hu. induction ratings as [|r ratings IH].
  - exists ∅. split; [apply lookup_replicate_2, Hu|]. apply lookup_empty.
  - destruct IH as (row & Hrow & Hcell).
    rewrite fmap_cons, rating_sum_cons.
    change (foldr add_entry ?M0 (r :: ratings))
      with (add_entry r (foldr add_entry M0 ratings)).
    rewrite add_entry_lookup, Hrow.
    assert (Hkey : (u, i) ∈ rating_key r :: (rating_key <$> ratings) <->
                   (rt_user_id r = u /\ rt_movie_id r = i) \/
                   (u, i) ∈ rating_key <$> ratings).
    { rewrite elem_of_cons. unfold rating_key. split.
      - intros [[= -> ->] | H]; auto.
      - intros [[<- <-] | H]; auto. }
    destruct (decide (rt_user_id r = u)) as [Eu | Nu].
    + eexists. split; [reflexivity|]. rewrite lookup_insert, Hcell.
      destruct (decide (rt_movie_id r = i)) as [Ei | Ni].
      * rewrite decide_True by (apply Hkey; auto). f_equal.
        rewrite decide_True by (split; assumption). rewrite Ei, Hcell.
        destruct (decide ((u, i) ∈ rating_key <$> ratings)).
        -- apply wrap_add_r.
        -- rewrite rating_sum_absent by assumption. reflexivity.
      * rewrite (decide_False (P := _ ∧ _)) by tauto.
        destruct (decide ((u, i) ∈ rating_key <$> ratings)) as [Hin|Hnot].
        -- rewrite decide_True by (apply Hkey; auto). reflexivity.
        -- rewrite decide_False by (rewrite Hkey; tauto). reflexivity.
    + exists row. split; [reflexivity|]. rewrite Hcell.
      rewrite (decide_False (P := _ ∧ _)) by tauto.
      destruct (decide ((u, i) ∈ rating_key <$> ratings)) as [Hin|Hnot].
      * rewrite decide_True by (apply Hkey; auto). reflexivity.
      * rewrite decide_False by (rewrite Hkey; tauto). reflexivity.
Qed.

Lemma get_sparse_ok ratings X :
  get_sparse ratings = Ok X ->
  X = astype_int32
        (CsrMatrix (S (max_list (rt_movie_id <$> ratings)))
           (foldr add_entry
              (replicate (S (max_list (rt_user_id <$> ratings))) ∅) ratings)).
Proof.
  destruct ratings; [discriminate|]. intros [= <-]. reflexivity.
Qed.

Lemma get_sparse_shape ratings X :
  get_sparse ratings = Ok X ->
  shape X = (S (max_list (rt_user_id <$> ratings)),
             S (max_list (rt_movie_id <$> ratings))).
Proof.
  intros ->%get_sparse_ok. unfold shape, astype_int32. cbn [rows n_cols].
  rewrite length_fmap, foldr_add_entry_length, length_replicate. reflexivity.
Qed.

(** Reading any position inside the shape gives the sum of the ratings
    supplied for it, cast to int32. *)
Lemma get_sparse_getitem ratings X u i :
  get_sparse ratings = Ok X ->
  u < (shape X).1 -> i < (shape X).2 ->
  getitem X u i = Ok (wrap 32 (rating_sum ratings u i)).
Proof.
  intros HX. rewrite (get_sparse_shape _ _ HX). cbn [fst snd]. intros Hu Hi.
  apply get_sparse_ok in HX as ->.
  unfold getitem, astype_int32. cbn [rows n_cols].
  destruct (coo_rows_lookup ratings _ u i Hu) as (row & Hrow & Hcell).
  rewrite list_lookup_fmap, Hrow. cbn [fmap option_fmap option_map].
  destruct (Nat.ltb_spec i (S (max_list (rt_movie_id <$> ratings)))); [|lia].
  rewrite lookup_fmap, Hcell. f_equal.
  destruct (decide ((u, i) ∈ rating_key <$> ratings)); cbn.
  - apply wrap32_wrap64.
  - rewrite rating_sum_absent by assumption. reflexivity.
Qed.

Lemma rating_in_shape ratings X r :
  get_sparse ratings = Ok X -> r ∈ ratings ->
  rt_user_id r < (shape X).1 /\ rt_movie_id r < (shape X).2.
Proof.
  intros HX Hr. rewrite (get_sparse_shape _ _ HX). cbn [fst snd].
  split; apply Nat.lt_succ_r.
  - apply (max_list_elem_of_le (rt_user_id r)), list_elem_of_fmap_2, Hr.
  - apply (max_list_elem_of_le (rt_movie_id r)), list_elem_of_fmap_2, Hr.
Qed.

(** C8, as the spec has it, fails: the matrix is cast to int32, so a
    weight of 2^31 reads back as -2^31; and the constructor does merge
    the entries of a position that is given twice, by adding them. *)
Lemma get_sparse_int32_wraps :
  (get_sparse [RatingRow 0 0 2147483648] ≫= fun X => getitem X 0 0)
  = Ok (-2147483648)%Z
  /\ (get_sparse [RatingRow 0 0 3; RatingRow 0 0 4] ≫= fun X => getitem X 0 0)
     = Ok 7%Z.
Proof.
  split; reflexivity.
Qed.

(** C8 (amended). When every (user, movie) pair is given once and every
    rating fits in an int32, [get_sparse] builds a matrix in which each
    given pair reads back as its rating, and every other position of the
    matrix reads back as 0. *)
Theorem get_sparse_readback ratings :
  ratings <> [] ->
  NoDup (rating_key <$> ratings) ->
  Forall (fun r => int32_range (rt_rating r)) ratings ->
  exists X,
    get_sparse ratings = Ok X /\
    (forall r, r ∈ ratings ->
       getitem X (rt_user_id r) (rt_movie_id r) = Ok (rt_rating r)) /\
    (forall u i, u < (shape X).1 -> i < (shape X).2 ->
       (u, i) ∉ rating_key <$> ratings -> getitem X u i = Ok 0%Z).
Proof.
  intros Hne Hnd Hrange.
  assert (HX : exists X, get_sparse ratings = Ok X).
  { destruct ratings; [contradiction|]. eexists. reflexivity. }
  destruct HX as [X HX]. exists X. split; [exact HX|]. split.
  - intros r Hr.
    destruct (rating_in_shape _ _ _ HX Hr) as [Hu Hi].
    rewrite (get_sparse_getitem _ _ _ _ HX Hu Hi).
    rewrite rating_sum_unique by assumption.
    f_equal. apply wrap32_small.
    rewrite Forall_forall in Hrange. apply Hrange, Hr.
  - intros u i Hu Hi Habsent.
    rewrite (get_sparse_getitem _ _ _ _ HX Hu Hi).
    rewrite rating_sum_absent by assumption. reflexivity.
Qed.

Lemma get_sparse_readback_witness :
  exists X,
    get_sparse [RatingRow 0 0 5; RatingRow 1 0 3; RatingRow 1 1 4] = Ok X /\
    (forall r, r ∈ [RatingRow 0 0 5; RatingRow 1 0 3; RatingRow 1 1 4] ->
       getitem X (rt_user_id r) (rt_movie_id r) = Ok (rt_rating r)) /\
    (forall u i, u < (shape X).1 -> i < (shape X).2 ->
       (u, i) ∉ rating_key <$> [RatingRow 0 0 5; RatingRow 1 0 3; RatingRow 1 1 4] ->
       getitem X u i = Ok 0%Z).
Proof.
  apply (get_sparse_readback [RatingRow 0 0 5; RatingRow 1 0 3; RatingRow 1 1 4]).
  - discriminate.
  - apply (bool_decide_unpack _). vm_compute. exact I.
  - repeat constructor; unfold int32_range; simpl; lia.
Defined.

(** ** Index arrays *)

Lemma fancy_index_fmap {A} (d : A) (a : list A) idx xs :
  fancy_index a idx = Ok xs ->
  xs = (fun i => default d (a !! i)) <$> idx.
Proof.
  revert xs. induction idx as [|i idx IH]; intros xs; simpl.
  - intros [= <-]. reflexivity.
  - destruct (a !! i) as [x|]; [|discriminate].
    destruct (fancy_index a idx) as [xs'|]; [|discriminate].
    intros [= <-]. simpl. f_equal. apply IH. reflexivity.
Qed.

Lemma fancy_index_defined {A} (a : list A) idx :
  Forall (fun i => i < length a) idx -> is_ok (fancy_index a idx).
Proof.
  induction 1 as [|i idx Hi _ IH]; simpl.
  - eexists. reflexivity.
  - destruct (lookup_lt_is_Some_2 a i Hi) as [x ->].
    destruct IH as [xs ->]. eexists. reflexivity.
Qed.

Lemma fancy_index_lookup {A} (a : list A) idx xs k i :
  fancy_index a idx = Ok xs -> idx !! k = Some i -> xs !! k = a !! i.
Proof.
  revert xs k. induction idx as [|j idx IH]; intros xs k; simpl.
  - intros _ Hk. discriminate.
  - destruct (a !! j) as [x|] eqn:Ej; [|discriminate].
    destruct (fancy_index a idx) as [xs'|]; [|discriminate].
    intros [= <-]. destruct k as [|k]; simpl.
    + intros [= <-]. symmetry. exact Ej.
    + apply IH. reflexivity.
Qed.

Lemma fancy_index_length {A} (a : list A) idx xs :
  fancy_index a idx = Ok xs -> length xs = length idx.
Proof.
  intros H. pose proof (lookup_lt_is_Some_2 a) as _.
  destruct a as [|d a].
  - destruct idx; simpl in H; [injection H as <-; reflexivity | discriminate].
  - rewrite (fancy_index_fmap d _ _ _ H), length_fmap. reflexivity.
Qed.

Lemma fmap_lookup_seq {A} (d : A) (a : list A) :
  (fun i => default d (a !! i)) <$> seq 0 (length a) = a.
Proof.
  apply list_eq. intros k. rewrite list_lookup_fmap.
  destruct (decide (k < length a)) as [Hk | Hk].
  - rewrite lookup_seq_lt by exact Hk. simpl.
    destruct (lookup_lt_is_Some_2 a k Hk) as [x ->]. reflexivity.
  - rewrite lookup_seq_ge by lia. rewrite lookup_ge_None_2 by lia. reflexivity.
Qed.

(** ** [train_test_split] *)

(** The sizes that pass the validation: both parts are nonempty and
    together they are all the samples. *)
Lemma validate_shuffle_split_sizes n test_size n_train n_test :
  validate_shuffle_split n test_size = Ok (n_train, n_test) ->
  n_train + n_test = n /\ 0 < n_train /\ 0 < n_test.
Proof.
  unfold validate_shuffle_split. destruct test_size as [q | k].
  - cbv zeta.
    destruct (Qle_bool (float64 q) 0 || Qle_bool 1 (float64 q)) eqn:Eq;
      [discriminate|].
    apply orb_false_iff in Eq as [Hq0 Hq1].
    cbn [mbind result_bind].
    set (m := Z.to_nat _).
    destruct (Nat.eqb_spec (n - m) 0) as [|Hne]; [discriminate|].
    intros [= <- <-]. split; [lia|]. split; [lia|].
    assert (Hpos : (0 < float64 q)%Q).
    { apply Qnot_le_lt. intros H%Qle_bool_iff. congruence. }
    assert (Hn : (inject_Z 0 < inject_Z (Z.of_nat n))%Q).
    { rewrite <- Zlt_Qlt. lia. }
    assert (Hc : (0 < Qceiling (float64 (float64 q * inject_Z (Z.of_nat n))))%Z).
    { rewrite Zlt_Qlt. eapply Qlt_le_trans; [|apply Qle_ceiling].
      apply float64_pos. apply Qmult_lt_0_compat; assumption. }
    unfold m. lia.
  - destruct ((k <=? 0)%Z || (Z.of_nat n <=? k)%Z) eqn:Ek; [discriminate|].
    apply orb_false_iff in Ek as [Hk0%Z.leb_gt Hk1%Z.leb_gt].
    cbn [mbind result_bind].
    destruct (Nat.eqb_spec (n - Z.to_nat k) 0) as [|Hne]; [discriminate|].
    intros [= <- <-]. lia.
Qed.

(** The two index arrays of a split, whatever [shuffle] is, are together
    a rearrangement of [0 .. n-1]. *)
Lemma split_indices_perm shuffle permutation n n_train n_test :
  permutation ≡ₚ seq 0 n -> n_train + n_test = n ->
  (split_indices shuffle permutation n_train n_test).1
  ++ (split_indices shuffle permutation n_train n_test).2 ≡ₚ seq 0 n.
Proof.
  intros Hperm Hn. unfold split_indices. destruct shuffle; cbn [fst snd].
  - assert (Hlen : length permutation = n).
    { rewrite Hperm. apply length_seq. }
    rewrite (take_ge (drop n_test permutation))
      by (rewrite length_drop; lia).
    rewrite (Permutation_app_comm (drop _ _)), take_drop. exact Hperm.
  - rewrite <- Hn, seq_app. reflexivity.
Qed.

Lemma train_test_split_unfold X test_size shuffle permutation n_train n_test :
  validate_shuffle_split (length (rows X)) test_size = Ok (n_train, n_test) ->
  train_test_split X test_size shuffle permutation =
  (fancy_index (rows X) (split_indices shuffle permutation n_train n_test).1
   ≫= fun X_train =>
   fancy_index (rows X) (split_indices shuffle permutation n_train n_test).2
   ≫= fun X_test =>
   Ok (CsrMatrix (n_cols X) X_train, CsrMatrix (n_cols X) X_test)).
Proof.
  intros Hv. unfold train_test_split. rewrite Hv. reflexivity.
Qed.

(** With [shuffle], row [k] of the test part is the row of the matrix
    that the permutation names at position [k], and row [k] of the train
    part the one it names at position [n_test + k]. *)
Lemma train_test_split_shuffled_rows X test_size permutation
    n_train n_test X_train X_test :
  validate_shuffle_split (length (rows X)) test_size = Ok (n_train, n_test) ->
  train_test_split X test_size true permutation = Ok (X_train, X_test) ->
  (forall k i, k < n_test -> permutation !! k = Some i ->
     rows X_test !! k = rows X !! i) /\
  (forall k i, k < n_train -> permutation !! (n_test + k) = Some i ->
     rows X_train !! k = rows X !! i).
Proof.
  intros Hv. rewrite (train_test_split_unfold _ _ true permutation _ _ Hv).
  unfold split_indices. cbn [fst snd].
  destruct (fancy_index (rows X) (take n_train (drop n_test permutation)))
    as [rows_train|] eqn:Etrain; [|discriminate].
  destruct (fancy_index (rows X) (take n_test permutation))
    as [rows_test|] eqn:Etest; [|discriminate].
  cbn [mbind result_bind]. intros [= <- <-]. cbn [rows]. split.
  - intros k i Hk Hi. apply (fancy_index_lookup _ _ _ _ _ Etest).
    rewrite lookup_take_lt by exact Hk. exact Hi.
  - intros k i Hk Hi. apply (fancy_index_lookup _ _ _ _ _ Etrain).
    rewrite lookup_take_lt by exact Hk. rewrite lookup_drop. exact Hi.
Qed.

Lemma sum_list_fmap_app {A} (f : A -> nat) (l k : list A) :
  sum_list (f <$> (l ++ k)) = sum_list (f <$> l) + sum_list (f <$> k).
Proof. rewrite fmap_app. apply sum_list_with_app. Qed.

(** C1, as the spec has it, fails: the split selects whole rows, so the
    two parts have fewer rows than the matrix, and row 0 of the train
    part and row 0 of the test part (two different users) can both hold
    a nonzero value in the same column. *)
Lemma train_test_split_selects_rows :
  exists X_train X_test,
    train_test_split (CsrMatrix 1 [ {[ 0 := 1%Z ]}; {[ 0 := 1%Z ]} ])
                     (Fraction (1 # 5)) true [0; 1] = Ok (X_train, X_test) /\
    shape (CsrMatrix 1 [ {[ 0 := 1%Z ]}; {[ 0 := 1%Z ]} ]) = (2, 1) /\
    shape X_train = (1, 1) /\ shape X_test = (1, 1) /\
    getitem X_train 0 0 = Ok 1%Z /\ getitem X_test 0 0 = Ok 1%Z.
Proof.
  do 2 eexists. split; [vm_compute; reflexivity|]. repeat split.
Qed.

(** C1 (amended). [train_test_split] partitions the rows (the users) of
    the matrix: the rows of the train part followed by those of the test
    part are a rearrangement of the rows of the matrix, each row kept
    whole and the number of columns kept; the row counts add up to the
    number of rows, and the counts of nonzero (and of stored) values add
    up to those of the matrix. *)
Theorem train_test_split_partitions_rows X test_size shuffle permutation
    n_train n_test :
  validate_shuffle_split (length (rows X)) test_size = Ok (n_train, n_test) ->
  permutation ≡ₚ seq 0 (length (rows X)) ->
  exists X_train X_test,
    train_test_split X test_size shuffle permutation = Ok (X_train, X_test) /\
    shape X_train = (n_train, n_cols X) /\
    shape X_test = (n_test, n_cols X) /\
    n_train + n_test = length (rows X) /\
    rows X_train ++ rows X_test ≡ₚ rows X /\
    count_nonzero X_train + count_nonzero X_test = count_nonzero X /\
    nnz X_train + nnz X_test = nnz X.
Proof.
  intros Hv Hperm.
  destruct (validate_shuffle_split_sizes _ _ _ _ Hv) as (Hn & Htrain & Htest).
  pose proof (split_indices_perm shuffle _ _ _ _ Hperm Hn) as Hidx.
  rewrite (train_test_split_unfold _ _ shuffle permutation _ _ Hv).
  destruct (split_indices shuffle permutation n_train n_test)
    as [train test] eqn:Esplit.
  cbn [fst snd] in *.
  assert (Hlen : length train = n_train /\ length test = n_test).
  { unfold split_indices in Esplit. injection Esplit as <- <-.
    assert (length permutation = length (rows X))
      by (rewrite Hperm; apply length_seq).
    destruct shuffle.
    - rewrite !length_take, length_drop. lia.
    - rewrite !length_seq. lia. }
  destruct Hlen as [Hltrain Hltest].
  assert (Hbound : Forall (fun i => i < length (rows X)) (train ++ test)).
  { rewrite Hidx. apply Forall_forall. intros i Hi%elem_of_seq. lia. }
  apply Forall_app in Hbound as [Hbtrain Hbtest].
  destruct (fancy_index_defined _ _ Hbtrain) as [rows_train Etrain].
  destruct (fancy_index_defined _ _ Hbtest) as [rows_test Etest].
  rewrite Etrain, Etest. cbn [mbind result_bind].
  exists (CsrMatrix (n_cols X) rows_train), (CsrMatrix (n_cols X) rows_test).
  assert (Hrows : rows_train ++ rows_test ≡ₚ rows X).
  { rewrite (fancy_index_fmap ∅ _ _ _ Etrain), (fancy_index_fmap ∅ _ _ _ Etest).
    rewrite <- fmap_app, Hidx. rewrite fmap_lookup_seq. reflexivity. }
  unfold shape, count_nonzero, nnz. cbn [rows n_cols].
  rewrite (fancy_index_length _ _ _ Etrain), (fancy_index_length _ _ _ Etest).
  rewrite Hltrain, Hltest.
  rewrite <- !sum_list_fmap_app, Hrows.
  repeat split; first [exact Hn | reflexivity].
Qed.

Lemma train_test_split_partitions_rows_witness :
  exists X_train X_test,
    train_test_split
      (CsrMatrix 2 [ {[ 0 := 5%Z; 1 := 3%Z ]}; {[ 1 := 4%Z ]}; ∅ ])
      (Fraction (1 # 5)) true [2; 0; 1] = Ok (X_train, X_test) /\
    shape X_train = (2, 2) /\
    shape X_test = (1, 2) /\
    2 + 1 = 3 /\
    rows X_train ++ rows X_test
      ≡ₚ [ {[ 0 := 5%Z; 1 := 3%Z ]}; {[ 1 := 4%Z ]}; ∅ ] /\
    count_nonzero X_train + count_nonzero X_test
      = count_nonzero
          (CsrMatrix 2 [ {[ 0 := 5%Z; 1 := 3%Z ]}; {[ 1 := 4%Z ]}; ∅ ]) /\
    nnz X_train + nnz X_test
      = nnz (CsrMatrix 2 [ {[ 0 := 5%Z; 1 := 3%Z ]}; {[ 1 := 4%Z ]}; ∅ ]).
Proof.
  apply (train_test_split_partitions_rows
           (CsrMatrix 2 [ {[ 0 := 5%Z; 1 := 3%Z ]}; {[ 1 := 4%Z ]}; ∅ ])
           (Fraction (1 # 5)) true [2; 0; 1] 2 1).
  - reflexivity.
  - apply (bool_decide_unpack _). vm_compute. exact I.
Defined.

(** ** Sorting by score, and [unique] *)

Lemma score_ge_le r1 r2 : score_ge r1 r2 <-> (score r2 <= score r1)%Q.
Proof.
  unfold score_ge. rewrite Is_true_true. apply Qle_bool_iff.
Qed.

#[global] Instance score_ge_total : Total score_ge.
Proof.
  intros r1 r2. rewrite !score_ge_le.
  destruct (Qlt_le_dec (score r1) (score r2)) as [H|H]; [right | left]; lra.
Qed.

#[global] Instance score_ge_trans : Transitive score_ge.
Proof.
  intros r1 r2 r3. rewrite !score_ge_le. lra.
Qed.

Lemma merge_sort_values_sorts : sorts_by_score_desc merge_sort_values.
Proof.
  split; intros df0.
  - apply merge_sort_Permutation.
  - apply (StronglySorted_merge_sort score_ge).
Qed.

Lemma unique_from_elem seen l x :
  x ∈ unique_from seen l <-> x ∈ l /\ x ∉ seen.
Proof.
  revert seen. induction l as [|y l IH]; intros seen; simpl.
  - split; [intros H; inversion H | intros [H _]; inversion H].
  - destruct (decide (y ∈ seen)) as [Hy | Hy].
    + rewrite IH, elem_of_cons. split; [tauto|].
      intros [[-> | H] Hx]; tauto.
    + rewrite !elem_of_cons, IH, not_elem_of_cons. split.
      * intros [-> | (H & Hne & Hx)]; tauto.
      * intros [[-> | H] Hx]; [tauto|].
        destruct (decide (x = y)) as [-> | Hne]; tauto.
Qed.

Lemma unique_from_NoDup seen l : NoDup (unique_from seen l).
Proof.
  revert seen. induction l as [|y l IH]; intros seen; simpl.
  - constructor.
  - destruct (decide (y ∈ seen)); [apply IH|].
    constructor; [|apply IH].
    rewrite unique_from_elem, not_elem_of_cons. tauto.
Qed.

Lemma unique_Permutation l l' : l ≡ₚ l' -> unique l ≡ₚ unique l'.
Proof.
  intros H. apply NoDup_Permutation; try apply unique_from_NoDup.
  intros x. unfold unique. rewrite !unique_from_elem, H. reflexivity.
Qed.

(** Everything that comes before the first appearance of a value kept by
    [unique()[:k]] is kept as well. *)
Lemma unique_from_take_prefix seen l k m :
  m ∈ take k (unique_from seen l) ->
  exists l1 l2, l = l1 ++ m :: l2 /\
    forall x, x ∈ l1 -> x ∈ seen \/ x ∈ take k (unique_from seen l).
Proof.
  revert seen k. induction l as [|y l IH]; intros seen k; simpl.
  - rewrite take_nil. intros H. inversion H.
  - destruct (decide (y ∈ seen)) as [Hy | Hy].
    + intros Hm. destruct (IH _ _ Hm) as (l1 & l2 & -> & Hl1).
      exists (y :: l1), l2. split; [reflexivity|].
      intros x [-> | Hx]%elem_of_cons; [left; exact Hy | apply Hl1, Hx].
    + destruct k as [|k]; simpl; [intros H; inversion H|].
      intros [-> | Hm]%elem_of_cons.
      * exists [], l. split; [reflexivity|]. intros x Hx. inversion Hx.
      * destruct (IH _ _ Hm) as (l1 & l2 & -> & Hl1).
        exists (y :: l1), l2. split; [reflexivity|].
        intros x [-> | Hx]%elem_of_cons; [right; left|].
        destruct (Hl1 x Hx) as [[-> | Hs]%elem_of_cons | Ht].
        -- right. left.
        -- left. exact Hs.
        -- right. right. exact Ht.
Qed.

(** ** [recommend_for_new_users] *)

Section ColdStart.

Variable sort_values : DataFrame -> DataFrame.
Hypothesis sort_values_ok : sorts_by_score_desc sort_values.

(** The pool holds distinct movies of the data frame. *)
Lemma candidate_pool_NoDup df size : NoDup (candidate_pool sort_values df size).
Proof.
  unfold candidate_pool. eapply sublist_NoDup; [|apply sublist_take].
  apply unique_from_NoDup.
Qed.

Lemma candidate_pool_length df size :
  size <= length (unique (movie_id <$> df)) ->
  length (candidate_pool sort_values df size) = size.
Proof.
  intros H. unfold candidate_pool. apply length_take_le.
  rewrite (unique_Permutation (movie_id <$> sort_values df) (movie_id <$> df)).
  - exact H.
  - apply fmap_Permutation, sort_values_ok.
Qed.

(** The pool is a top of the table: a movie of the pool has a row whose
    score no row of a movie outside the pool exceeds. *)
Lemma candidate_pool_top df size m :
  m ∈ candidate_pool sort_values df size ->
  exists r, r ∈ df /\ movie_id r = m /\
    forall r', r' ∈ df -> movie_id r' ∉ candidate_pool sort_values df size ->
               (score r' <= score r)%Q.
Proof.
  unfold candidate_pool, unique. intros Hm.
  destruct (unique_from_take_prefix _ _ _ _ Hm) as (l1 & l2 & Hids & Hl1).
  apply fmap_app_inv in Hids as (L1 & L2' & El1 & Hids & Hsorted).
  symmetry in Hids. apply fmap_cons_inv in Hids as (r & L2 & Em & _ & EL2).
  subst l1 L2'.
  pose proof (sort_values_sorted _ sort_values_ok df) as Hss.
  pose proof (sort_values_perm _ sort_values_ok df) as Hperm.
  rewrite Hsorted in Hss, Hperm.
  exists r. split; [rewrite <- Hperm; set_solver|]. split; [symmetry; exact Em|].
  intros r' Hr' Hout. rewrite <- Hperm in Hr'.
  apply elem_of_app in Hr' as [Hin1 | [-> | Hin2]%elem_of_cons].
  - exfalso. apply Hout.
    destruct (Hl1 (movie_id r')) as [Hs | Ht].
    + apply list_elem_of_fmap_2, Hin1.
    + inversion Hs.
    + exact Ht.
  - lra.
  - apply StronglySorted_app_1_r in Hss.
    apply StronglySorted_inv in Hss as [_ Hall].
    rewrite Forall_forall in Hall. apply score_ge_le, Hall, Hin2.
Qed.

(** C2 (amended). The candidate pool is the first [size] distinct movie
    ids of the table sorted by score, best first (nothing orders equal
    scores by id), and the answer is read off the pool at the [n] drawn
    indices, one independent draw per position (the same movie can come
    up more than once): it has [n] entries, all of them in the pool. *)
Theorem recommend_for_new_users_draws df n size draws :
  randint_outcome size n draws ->
  0 < size ->
  size <= length (unique (movie_id <$> df)) ->
  exists res,
    recommend_for_new_users sort_values df size draws = Ok res /\
    length res = n /\
    (forall k d, draws !! k = Some d ->
                 res !! k = candidate_pool sort_values df size !! d) /\
    (forall m, m ∈ res -> m ∈ candidate_pool sort_values df size) /\
    NoDup (candidate_pool sort_values df size) /\
    length (candidate_pool sort_values df size) = size /\
    (forall m, m ∈ candidate_pool sort_values df size ->
       exists r, r ∈ df /\ movie_id r = m /\
         forall r', r' ∈ df ->
           movie_id r' ∉ candidate_pool sort_values df size ->
           (score r' <= score r)%Q).
Proof.
  intros [Hlen Hdraws] Hpos Hsize.
  pose proof (candidate_pool_length df size Hsize) as Hpool.
  unfold recommend_for_new_users.
  destruct (Nat.eqb_spec size 0) as [|_]; [lia|].
  destruct (fancy_index_defined (candidate_pool sort_values df size) draws)
    as [res Hres].
  { rewrite Hpool. exact Hdraws. }
  exists res. split; [exact Hres|].
  split; [rewrite (fancy_index_length _ _ _ Hres); exact Hlen|].
  split; [intros k d Hk; apply (fancy_index_lookup _ _ _ _ _ Hres Hk)|].
  split.
  { intros m Hm. apply list_elem_of_lookup in Hm as [k Hk].
    assert (Hklt : k < length draws).
    { rewrite <- (fancy_index_length _ _ _ Hres).
      apply lookup_lt_is_Some. eauto. }
    destruct (lookup_lt_is_Some_2 draws k Hklt) as [d Hd].
    rewrite (fancy_index_lookup _ _ _ _ _ Hres Hd) in Hk.
    apply list_elem_of_lookup. eauto. }
  split; [apply candidate_pool_NoDup|].
  split; [exact Hpool|].
  intros m. apply candidate_pool_top.
Qed.

End ColdStart.

(** C2, as the spec has it, fails: the indices are drawn independently,
    so the same movie can be returned twice (here both draws are 0, with
    a pool of two movies); and equal scores are not ordered by movie id
    (here movie 5 precedes movie 2 in the table and in the pool). *)
Lemma recommend_for_new_users_repeats :
  randint_outcome 2 2 [0; 0] /\
  recommend_for_new_users merge_sort_values
    [DfRow 2 10; DfRow 5 10; DfRow 1 5] 2 [0; 0] = Ok [2; 2] /\
  candidate_pool merge_sort_values [DfRow 5 10; DfRow 2 10; DfRow 1 5] 1 = [5].
Proof.
  split; [|split; reflexivity].
  split; [reflexivity|]. repeat constructor.
Qed.

Lemma recommend_for_new_users_draws_witness :
  exists res,
    recommend_for_new_users merge_sort_values
      [DfRow 2 10; DfRow 5 10; DfRow 1 5] 2 [0; 1] = Ok res /\
    length res = 2 /\
    (forall k d, [0; 1] !! k = Some d ->
       res !! k = candidate_pool merge_sort_values
                    [DfRow 2 10; DfRow 5 10; DfRow 1 5] 2 !! d) /\
    (forall m, m ∈ res ->
       m ∈ candidate_pool merge_sort_values
             [DfRow 2 10; DfRow 5 10; DfRow 1 5] 2) /\
    NoDup (candidate_pool merge_sort_values
             [DfRow 2 10; DfRow 5 10; DfRow 1 5] 2) /\
    length (candidate_pool merge_sort_values
              [DfRow 2 10; DfRow 5 10; DfRow 1 5] 2) = 2 /\
    (forall m, m ∈ candidate_pool merge_sort_values
                     [DfRow 2 10; DfRow 5 10; DfRow 1 5] 2 ->
       exists r, r ∈ [DfRow 2 10; DfRow 5 10; DfRow 1 5] /\ movie_id r = m /\
         forall r', r' ∈ [DfRow 2 10; DfRow 5 10; DfRow 1 5] ->
           movie_id r' ∉ candidate_pool merge_sort_values
                           [DfRow 2 10; DfRow 5 10; DfRow 1 5] 2 ->
           (score r' <= score r)%Q).
Proof.
  apply (recommend_for_new_users_draws merge_sort_values
           merge_sort_values_sorts [DfRow 2 10; DfRow 5 10; DfRow 1 5]
           2 2 [0; 1]).
  - split; [reflexivity|]. repeat constructor.
  - lia.
  - vm_compute. lia.
Defined.

(** ** Dictionaries *)

Lemma dict_set_fresh {V} (d : list (nat * V)) k v :
  k ∉ d.*1 -> dict_set d k v = d ++ [(k, v)].
Proof.
  induction d as [|[k' v'] d IH]; simpl; intros Hk; [reflexivity|].
  apply not_elem_of_cons in Hk as [Hne Hk].
  rewrite decide_False by congruence. f_equal. apply IH, Hk.
Qed.

Lemma dict_set_length {V} (d : list (nat * V)) k v :
  length (dict_set d k v) <= S (length d).
Proof.
  induction d as [|[k' v'] d IH]; simpl; [lia|].
  destruct (decide (k' = k)); simpl; lia.
Qed.

Lemma foldl_dict_set_distinct {V} (d pairs : list (nat * V)) :
  NoDup (d.*1 ++ pairs.*1) ->
  foldl (fun d kv => dict_set d kv.1 kv.2) d pairs = d ++ pairs.
Proof.
  revert d. induction pairs as [|[k v] pairs IH]; intros d Hnd; simpl.
  - rewrite app_nil_r. reflexivity.
  - simpl in Hnd. rewrite dict_set_fresh.
    + rewrite IH; [rewrite <- app_assoc; reflexivity|].
      rewrite fmap_app, <- app_assoc. exact Hnd.
    + apply NoDup_app in Hnd as (_ & Hdisj & _).
      intros Hk. apply (Hdisj k Hk). left.
Qed.

(** In any case it has no more entries than there are pairs. *)
Lemma dict_of_length {V} (pairs : list (nat * V)) :
  length (dict_of pairs) <= length pairs.
Proof.
  unfold dict_of.
  assert (H : forall d : list (nat * V),
             length (foldl (fun d kv => dict_set d kv.1 kv.2) d pairs)
             <= length d + length pairs).
  { induction pairs as [|[k v] pairs IH]; intros d; simpl; [lia|].
    specialize (IH (dict_set d k v)).
    pose proof (dict_set_length d k v). lia. }
  apply (H []).
Qed.

(** ** [fit] and the file system *)

Lemma str_length_app (a b : string) :
  String.length (a +:+ b) = String.length a + String.length b.
Proof. induction a as [|c a IH]; simpl; [reflexivity | rewrite IH; reflexivity]. Qed.

(** The file that is written carries the extension. *)
Lemma npz_path_other file : endswith file ".npz" = false -> npz_path file <> file.
Proof.
  intros Hsuffix Heq. unfold npz_path in Heq. rewrite Hsuffix in Heq.
  apply (f_equal String.length) in Heq. rewrite str_length_app in Heq.
  simpl in Heq. lia.
Qed.

Section Fit.

Context `{Trainer Model}.

Variable self : RecommenderSystem Model.
Variables (test_size : size_arg) (shuffle : bool) (permutation : list nat).
Variable kwargs : als_kwargs.

(** A [fit] that returns went through the split, the training and the
    evaluation, and then wrote one file. *)
Lemma fit_inv fs self' fs' trained score :
  fit self fs test_size shuffle permutation kwargs
  = Ok (self', fs', (trained, score)) ->
  exists X_train X_test,
    train_test_split (sparse_matrix self) test_size shuffle permutation
    = Ok (X_train, X_test) /\
    als_fit kwargs X_train = Ok trained /\
    evaluate_model trained X_train X_test = Ok score /\
    fs' = <[npz_path (model_save_address self) := ModelFile trained]> fs /\
    self' = {| df := df self;
               sparse_matrix := sparse_matrix self;
               model_save_address := model_save_address self;
               model := Some trained;
               test_score := Some score |}.
Proof.
  unfold fit.
  destruct (train_test_split (sparse_matrix self) test_size shuffle permutation)
    as [[X_train X_test]|e]; [|discriminate].
  cbn [mbind result_bind].
  destruct (als_fit kwargs X_train) as [m|e] eqn:Em; [|discriminate].
  cbn [mbind result_bind].
  destruct (evaluate_model m X_train X_test) as [s|e] eqn:Es; [|discriminate].
  cbn [mbind result_bind].
  intros [= <- <- <- <-]. exists X_train, X_test.
  repeat (split; [reflexivity || assumption|]). reflexivity.
Qed.

(** C9 (amended). A call of [fit] that returns has trained on the train
    part of the split, evaluated, and written one file: the trained
    model, at [model_save_address] with the extension [.npz] (appended
    when the address lacks it).  No other file is touched, and in the
    object only the model and the test score change. *)
Theorem fit_writes_model_file fs self' fs' trained score :
  fit self fs test_size shuffle permutation kwargs
  = Ok (self', fs', (trained, score)) ->
  (exists X_train X_test,
     train_test_split (sparse_matrix self) test_size shuffle permutation
     = Ok (X_train, X_test) /\
     als_fit kwargs X_train = Ok trained /\
     evaluate_model trained X_train X_test = Ok score) /\
  fs' !! npz_path (model_save_address self) = Some (ModelFile trained) /\
  (forall path, path <> npz_path (model_save_address self) ->
                fs' !! path = fs !! path) /\
  model self' = Some trained /\ test_score self' = Some score /\
  df self' = df self /\ sparse_matrix self' = sparse_matrix self /\
  model_save_address self' = model_save_address self.
Proof.
  intros Hfit.
  destruct (fit_inv _ _ _ _ _ Hfit)
    as (X_train & X_test & Hsplit & Htrain & Heval & -> & ->).
  cbn [model test_score df sparse_matrix model_save_address].
  split; [exists X_train, X_test; auto|].
  split; [apply lookup_insert_eq|].
  split; [intros path Hpath; apply lookup_insert_ne; congruence|].
  repeat split.
Qed.

End Fit.

(** [load_model] only looks at the file system. *)
Lemma load_model_absent {Model} (fs : gmap string (file Model)) path :
  fs !! path = None -> load_model fs path = Ok None.
Proof. intros H. unfold load_model. rewrite H. reflexivity. Qed.

(** The example run: one user of five is held out, the model is fitted
    on the other four and saved. *)
Lemma five_users_fit :
  fit (saving_to "als_recommender_model.npz") ∅
      (Fraction (1 # 5)) true [3; 0; 4; 1; 2] some_kwargs
  = Ok (fitted "als_recommender_model.npz",
        {[ "als_recommender_model.npz" := ModelFile four_users_model ]},
        (four_users_model, 0%Q)).
Proof. vm_compute. reflexivity. Qed.

Lemma five_users_fit_no_extension :
  fit (saving_to "als_recommender_model") ∅
      (Fraction (1 # 5)) true [3; 0; 4; 1; 2] some_kwargs
  = Ok (fitted "als_recommender_model",
        {[ "als_recommender_model.npz" := ModelFile four_users_model ]},
        (four_users_model, 0%Q)).
Proof. vm_compute. reflexivity. Qed.

(** C9, as the spec has it, fails: [fit] itself saves the model, so a
    file that did not exist before the call exists after it, with no
    call of [save] by the caller. *)
Lemma fit_creates_file :
  exists self' fs' trained score,
    fit (saving_to "als_recommender_model.npz") ∅
        (Fraction (1 # 5)) true [3; 0; 4; 1; 2] some_kwargs
    = Ok (self', fs', (trained, score)) /\
    (∅ : gmap string (file FactorModel))
      !! "als_recommender_model.npz" = None /\
    fs' !! "als_recommender_model.npz" = Some (ModelFile trained).
Proof.
  exists (fitted "als_recommender_model.npz"),
         {[ "als_recommender_model.npz" := ModelFile four_users_model ]},
         four_users_model, 0%Q.
  split; [exact five_users_fit|]. split; [reflexivity|].
  apply lookup_singleton_eq.
Qed.

Lemma fit_writes_model_file_witness :
  exists (self' : RecommenderSystem FactorModel) fs' trained score,
    fit (saving_to "als_recommender_model.npz") ∅
        (Fraction (1 # 5)) true [3; 0; 4; 1; 2] some_kwargs
    = Ok (self', fs', (trained, score)) /\
    fs' !! "als_recommender_model.npz" = Some (ModelFile trained) /\
    model self' = Some trained.
Proof.
  exists (fitted "als_recommender_model.npz"),
         {[ "als_recommender_model.npz" := ModelFile four_users_model ]},
         four_users_model, 0%Q.
  split; [exact five_users_fit|].
  destruct (fit_writes_model_file
              (saving_to "als_recommender_model.npz")
              (Fraction (1 # 5)) true [3; 0; 4; 1; 2] some_kwargs
              ∅ _ _ _ _ five_users_fit)
    as (_ & Hfs & _ & Hmodel & _).
  split; [exact Hfs | exact Hmodel].
Defined.

(** * Further properties of the recommender *)

(** ** [compare_movies]: when it raises, and how the threshold acts *)

Local Open Scope Q_scope.

Lemma iloc0_loc_score_known df m :
  is_ok (iloc0 (loc_score df m)) <-> known_movie df m.
Proof.
  unfold known_movie, loc_score. induction df as [|r df IH].
  - split; [intros [s Hs]; discriminate | intros (r & Hr & _); inversion Hr].
  - rewrite filter_cons. destruct (decide (movie_id r = m)) as [E | N].
    + split; [intros _; exists r; split; [left | exact E]|].
      intros _. eexists. reflexivity.
    + rewrite IH. split.
      * intros (r' & Hr' & E). exists r'. split; [right; exact Hr' | exact E].
      * intros (r' & [-> | Hr']%elem_of_cons & E); [contradiction|].
        exists r'. split; assumption.
Qed.

(** What [compare_movies] returns when it returns. *)
Lemma compare_movies_inv df a b t answer :
  compare_movies df a b t = Ok answer ->
  0 <= t <= 100 /\
  exists sa sb,
    iloc0 (loc_score df a) = Ok sa /\ iloc0 (loc_score df b) = Ok sb /\
    answer = f_gt (difference_by_percentage sa sb) t.
Proof.
  unfold compare_movies.
  destruct (Qltb 100 t || Qltb t 0) eqn:Et; [discriminate|].
  apply orb_false_iff in Et as [E1%Qltb_ge E2%Qltb_ge].
  destruct (iloc0 (loc_score df a)) as [sa|] eqn:Ea; [|discriminate].
  destruct (iloc0 (loc_score df b)) as [sb|] eqn:Eb; [|discriminate].
  cbn [mbind result_bind]. intros [= <-].
  split; [split; assumption|]. exists sa, sb. repeat split.
Qed.

(** X1. [compare_movies] raises [ValueError] exactly for a threshold
    outside [0, 100], whatever the two movie ids are (known or not): the
    range check comes before any lookup, and nothing else raises it. *)
Theorem compare_movies_value_error df a b t :
  compare_movies df a b t = Raise ValueError <-> ~ 0 <= t <= 100.
Proof.
  split.
  - intros Hraise Ht. unfold compare_movies in Hraise.
    rewrite (threshold_ok t Ht) in Hraise.
    destruct (iloc0 (loc_score df a)) as [sa|e] eqn:Ea.
    + destruct (iloc0 (loc_score df b)) as [sb|e] eqn:Eb.
      * discriminate.
      * destruct (loc_score df b); simpl in Eb; [|discriminate].
        injection Eb as <-. discriminate.
    + destruct (loc_score df a); simpl in Ea; [|discriminate].
      injection Ea as <-. discriminate.
  - apply compare_movies_bad_threshold.
Qed.

(** X2. [compare_movies] returns a boolean exactly when the threshold is
    in [0, 100] and both movie ids occur in the data frame; a score of
    zero, an infinite or an undefined quotient do not make it raise. *)
Theorem compare_movies_returns df a b t :
  is_ok (compare_movies df a b t) <->
  0 <= t <= 100 /\ known_movie df a /\ known_movie df b.
Proof.
  split.
  - intros [answer Hanswer].
    destruct (compare_movies_inv _ _ _ _ _ Hanswer)
      as (Ht & sa & sb & Ha & Hb & _).
    split; [exact Ht|].
    split; apply iloc0_loc_score_known; eexists; eassumption.
  - intros (Ht & [sa Ha]%iloc0_loc_score_known & [sb Hb]%iloc0_loc_score_known).
    rewrite (compare_movies_found df a b t sa sb Ha Hb Ht). eexists. reflexivity.
Qed.

Lemma f_gt_antitone x t t' :
  0 <= t' -> t' <= t -> t <= 100 -> f_gt x t = true -> f_gt x t' = true.
Proof.
  intros H0 Hle H100.
  destruct (round32_threshold t) as (r & Hr & _); [split; lra|].
  destruct (round32_mono t' t r H0 Hle Hr) as (r' & Hr' & _ & Hrr).
  unfold f_gt. rewrite Hr, Hr'.
  destruct x as [q | s |]; try (intros H; exact H).
  intros H%Qltb_lt. apply Qltb_lt. lra.
Qed.

(** X3. Lowering the threshold never turns a [True] into a [False]: when
    two movies differ by more than [t] percent they differ by more than
    any smaller admissible threshold. *)
Theorem compare_movies_threshold_antitone df a b t t' :
  0 <= t' -> t' <= t ->
  compare_movies df a b t = Ok true ->
  compare_movies df a b t' = Ok true.
Proof.
  intros H0 Hle Htrue.
  destruct (compare_movies_inv _ _ _ _ _ Htrue)
    as ([_ H100] & sa & sb & Ha & Hb & Hgt).
  rewrite (compare_movies_found df a b t' sa sb Ha Hb) by (split; lra).
  f_equal. symmetry in Hgt. apply (f_gt_antitone _ t t' H0 Hle H100 Hgt).
Qed.

Lemma compare_movies_threshold_antitone_witness :
  compare_movies [DfRow 1 10; DfRow 2 20] 1 2 5 = Ok true.
Proof.
  apply (compare_movies_threshold_antitone _ _ _ 60 5);
    [discriminate | discriminate | reflexivity].
Defined.

Local Close Scope Q_scope.

(** ** [get_sparse]: duplicates, shape, stored entries *)

(** X4. Reading a position inside the shape of the matrix [get_sparse]
    built gives the sum of all the ratings the files hold for that
    (user, movie) pair, cast to int32: repeated ratings of a pair are
    added together, not replaced and not averaged. *)
Theorem get_sparse_sums_ratings ratings X u i :
  get_sparse ratings = Ok X ->
  u < (shape X).1 -> i < (shape X).2 ->
  getitem X u i = Ok (wrap 32 (rating_sum ratings u i)).
Proof. apply get_sparse_getitem. Qed.

Lemma get_sparse_sums_ratings_witness :
  exists X,
    get_sparse [RatingRow 1 0 3; RatingRow 1 0 4; RatingRow 0 1 5] = Ok X /\
    getitem X 0 1 = Ok (wrap 32 (rating_sum
      [RatingRow 1 0 3; RatingRow 1 0 4; RatingRow 0 1 5] 0 1)).
Proof.
  eexists. split; [reflexivity|].
  apply (get_sparse_sums_ratings
           [RatingRow 1 0 3; RatingRow 1 0 4; RatingRow 0 1 5]);
    [reflexivity | simpl; lia | simpl; lia].
Defined.

(** X5. [get_sparse] raises [ValueError] when there is no rating at all;
    otherwise the matrix has one row per user id up to the largest one
    and one column per movie id up to the largest one (ids that never
    occur, such as 0, get a row or column too). *)
Theorem get_sparse_shape_or_error ratings :
  (ratings = [] -> get_sparse ratings = Raise ValueError) /\
  (ratings <> [] ->
   exists X, get_sparse ratings = Ok X /\
     shape X = (S (max_list (rt_user_id <$> ratings)),
                S (max_list (rt_movie_id <$> ratings)))).
Proof.
  split.
  - intros ->. reflexivity.
  - intros Hne. assert (HX : exists X, get_sparse ratings = Ok X).
    { destruct ratings; [contradiction|]. eexists. reflexivity. }
    destruct HX as [X HX]. exists X. split; [exact HX|].
    apply get_sparse_shape, HX.
Qed.

Lemma get_sparse_shape_or_error_witness :
  exists X, get_sparse [RatingRow 7 2 5] = Ok X /\ shape X = (3, 8).
Proof.
  apply (proj2 (get_sparse_shape_or_error [RatingRow 7 2 5])). discriminate.
Defined.

Lemma sum_size_alter (M : list (gmap nat Z)) u row (f : gmap nat Z -> gmap nat Z) :
  M !! u = Some row ->
  sum_list (size <$> alter f u M) + size row
  = sum_list (size <$> M) + size (f row).
Proof.
  revert u. induction M as [|row0 M IH]; intros u Hu; [discriminate|].
  destruct u as [|u].
  - change (alter f 0 (row0 :: M)) with (f row0 :: M).
    injection Hu as ->.
    rewrite !fmap_cons. cbn [sum_list_with]. unfold id. lia.
  - specialize (IH u Hu).
    change (alter f (S u) (row0 :: M)) with (row0 :: alter f u M).
    rewrite !fmap_cons. cbn [sum_list_with]. unfold id at 1 3. lia.
Qed.

Lemma coo_rows_nnz ratings M :
  Forall (fun r => rt_user_id r < M) ratings ->
  sum_list (size <$> foldr add_entry (replicate M ∅) ratings)
  = length (remove_dups (rating_key <$> ratings)).
Proof.
  induction 1 as [|r ratings Hr _ IH].
  - simpl. induction M as [|M IH]; [reflexivity|]. simpl. exact IH.
  - destruct (coo_rows_lookup ratings M (rt_user_id r) (rt_movie_id r) Hr)
      as (row & Hrow & Hcell).
    change (foldr add_entry ?M0 (r :: ratings))
      with (add_entry r (foldr add_entry M0 ratings)).
    unfold add_entry at 1.
    pose proof (sum_size_alter _ _ _
      (fun row : gmap nat Z =>
         <[rt_movie_id r :=
             wrap 64 (rt_rating r + default 0 (row !! rt_movie_id r))%Z]> row)
      Hrow) as Hsum.
    cbv beta in Hsum. rewrite fmap_cons. cbn [remove_dups].
    change (rating_key r) with (rt_user_id r, rt_movie_id r).
    destruct (decide_rel elem_of (rt_user_id r, rt_movie_id r)
                (rating_key <$> ratings)) as [Hin | Hnot].
    + rewrite decide_True in Hcell by exact Hin.
      rewrite map_size_insert_Some in Hsum by (rewrite Hcell; eauto).
      lia.
    + rewrite decide_False in Hcell by exact Hnot.
      rewrite map_size_insert_None in Hsum by exact Hcell.
      cbn [length]. lia.
Qed.

(** X6. The matrix [get_sparse] builds stores one value per distinct
    (user, movie) pair of the ratings: [nnz] is the number of distinct
    pairs, however often a pair is rated (and also when the ratings of a
    pair add up to 0). *)
Theorem get_sparse_nnz ratings X :
  get_sparse ratings = Ok X ->
  nnz X = length (remove_dups (rating_key <$> ratings)).
Proof.
  intros ->%get_sparse_ok. unfold nnz, astype_int32. cbn [rows].
  rewrite <- list_fmap_compose.
  rewrite (list_fmap_ext _ size) by (intros; apply map_size_fmap).
  apply coo_rows_nnz. apply Forall_forall. intros r Hr.
  apply Nat.lt_succ_r.
  apply (max_list_elem_of_le (rt_user_id r)), list_elem_of_fmap_2, Hr.
Qed.

Lemma get_sparse_nnz_witness :
  exists X,
    get_sparse [RatingRow 1 0 3; RatingRow 1 0 (-3); RatingRow 0 1 5] = Ok X /\
    nnz X = 2.
Proof.
  eexists. split; [reflexivity|].
  apply (get_sparse_nnz [RatingRow 1 0 3; RatingRow 1 0 (-3); RatingRow 0 1 5]).
  reflexivity.
Defined.

(** ** [fit]: small matrices, and the saved model *)

Lemma validate_shuffle_split_small n test_size :
  n < 2 -> validate_shuffle_split n test_size = Raise ValueError.
Proof.
  intros Hn. unfold validate_shuffle_split. destruct test_size as [q | k].
  - cbv zeta.
    destruct (Qle_bool (float64 q) 0 || Qle_bool 1 (float64 q)) eqn:Eq;
      [reflexivity|].
    apply orb_false_iff in Eq as [Hq0 Hq1].
    cbn [mbind result_bind].
    set (c := Qceiling (float64 (float64 q * inject_Z (Z.of_nat n)))).
    destruct (Nat.eqb_spec (n - Z.to_nat c) 0) as [|Hne]; [reflexivity|].
    exfalso. apply Hne.
    assert (n = 0 \/ n = 1) as [-> | ->] by lia; [reflexivity|].
    assert (Hpos : (0 < float64 q)%Q).
    { apply Qnot_le_lt. intros H%Qle_bool_iff. congruence. }
    assert (Hc : (0 < c)%Z).
    { rewrite Zlt_Qlt. eapply Qlt_le_trans; [|apply Qle_ceiling].
      apply float64_pos.
      unfold inject_Z. change (Z.of_nat 1) with 1%Z. lra. }
    lia.
  - destruct ((k <=? 0)%Z || (Z.of_nat n <=? k)%Z) eqn:Ek; [reflexivity|].
    apply orb_false_iff in Ek as [Hk0%Z.leb_gt Hk1%Z.leb_gt]. lia.
Qed.

(** X7. [fit] needs at least two users: on a matrix with fewer than two
    rows it raises [ValueError] whatever [test_size], [shuffle] and the
    seed are (one of the two parts of the split would be empty), before
    anything is trained or saved. *)
Theorem fit_needs_two_users `{Trainer Model} (self : RecommenderSystem Model)
    fs test_size shuffle permutation kwargs :
  length (rows (sparse_matrix self)) < 2 ->
  fit self fs test_size shuffle permutation kwargs = Raise ValueError.
Proof.
  intros Hn. unfold fit, train_test_split.
  rewrite (validate_shuffle_split_small _ test_size Hn). reflexivity.
Qed.

Lemma fit_needs_two_users_witness :
  fit (untrained (CsrMatrix 3 [ {[ 0 := 5%Z; 2 := 1%Z ]} ])) ∅
      (Fraction (1 # 5)) true [0] some_kwargs = Raise ValueError.
Proof.
  apply (fit_needs_two_users
           (untrained (CsrMatrix 3 [ {[ 0 := 5%Z; 2 := 1%Z ]} ]))).
  simpl. lia.
Defined.

(** X8. A save address that does not end in [.npz] does not get the
    model: [fit] leaves it in the file with the extension appended, and
    when nothing is stored at the address itself, [load_model] on the
    address of the recommender still finds no model after the [fit]. *)
Theorem fit_then_load_model `{Trainer Model} (self : RecommenderSystem Model)
    fs test_size shuffle permutation kwargs self' fs' trained score :
  fit self fs test_size shuffle permutation kwargs
  = Ok (self', fs', (trained, score)) ->
  endswith (model_save_address self) ".npz" = false ->
  fs !! model_save_address self = None ->
  fs' !! (model_save_address self +:+ ".npz") = Some (ModelFile trained) /\
  load_model fs' (model_save_address self') = Ok None.
Proof.
  intros Hfit Hsuffix Habsent.
  destruct (fit_inv _ _ _ _ _ _ _ _ _ _ Hfit) as (_ & _ & _ & _ & _ & -> & ->).
  cbn [model_save_address].
  pose proof (npz_path_other _ Hsuffix) as Hother.
  unfold npz_path in *. rewrite Hsuffix in *. split.
  - apply lookup_insert_eq.
  - apply load_model_absent. rewrite lookup_insert_ne by exact Hother.
    exact Habsent.
Qed.

Lemma fit_then_load_model_witness :
  exists (self' : RecommenderSystem FactorModel) fs' trained score,
    fit (saving_to "als_recommender_model") ∅
        (Fraction (1 # 5)) true [3; 0; 4; 1; 2] some_kwargs
    = Ok (self', fs', (trained, score)) /\
    fs' !! "als_recommender_model.npz" = Some (ModelFile trained) /\
    load_model fs' "als_recommender_model" = Ok None.
Proof.
  exists (fitted "als_recommender_model"),
         {[ "als_recommender_model.npz" := ModelFile four_users_model ]},
         four_users_model, 0%Q.
  split; [exact five_users_fit_no_extension|].
  exact (fit_then_load_model
           (saving_to "als_recommender_model") ∅
           (Fraction (1 # 5)) true [3; 0; 4; 1; 2] some_kwargs
           _ _ _ _ five_users_fit_no_extension eq_refl eq_refl).
Defined.

(** X9. With [shuffle], the split renumbers the users: row [k] of the
    test part is the row of the user the permutation names at position
    [k], and row [k] of the train part that of the user at position
    [n_test + k]; a row index of a part is not a user id of the matrix. *)
Theorem train_test_split_renumbers_rows X test_size permutation
    n_train n_test X_train X_test :
  validate_shuffle_split (length (rows X)) test_size = Ok (n_train, n_test) ->
  train_test_split X test_size true permutation = Ok (X_train, X_test) ->
  (forall k i, k < n_test -> permutation !! k = Some i ->
     rows X_test !! k = rows X !! i) /\
  (forall k i, k < n_train -> permutation !! (n_test + k) = Some i ->
     rows X_train !! k = rows X !! i).
Proof. apply train_test_split_shuffled_rows. Qed.

Lemma train_test_split_renumbers_rows_witness :
  exists X_train X_test,
    train_test_split
      (CsrMatrix 2 [ {[ 0 := 5%Z ]}; {[ 1 := 4%Z ]}; {[ 0 := 2%Z; 1 := 1%Z ]} ])
      (Fraction (1 # 5)) true [2; 0; 1] = Ok (X_train, X_test) /\
    rows X_test !! 0 = Some {[ 0 := 2%Z; 1 := 1%Z ]} /\
    rows X_train !! 1 = Some {[ 1 := 4%Z ]}.
Proof.
  do 2 eexists.
  assert (Hsplit : train_test_split
      (CsrMatrix 2 [ {[ 0 := 5%Z ]}; {[ 1 := 4%Z ]}; {[ 0 := 2%Z; 1 := 1%Z ]} ])
      (Fraction (1 # 5)) true [2; 0; 1] = Ok (_, _))
    by (vm_compute; reflexivity).
  split; [exact Hsplit|].
  assert (Hsizes : validate_shuffle_split 3 (Fraction (1 # 5)) = Ok (2, 1))
    by (vm_compute; reflexivity).
  destruct (train_test_split_renumbers_rows
      (CsrMatrix 2 [ {[ 0 := 5%Z ]}; {[ 1 := 4%Z ]}; {[ 0 := 2%Z; 1 := 1%Z ]} ])
      (Fraction (1 # 5)) [2; 0; 1] 2 1 _ _ Hsizes Hsplit)
    as [Htest Htrain].
  split.
  - apply (Htest 0 2); [lia | reflexivity].
  - apply (Htrain 1 1); [lia | reflexivity].
Defined.

(** ** [recommend_for_new_users]: the pool can be too short *)

Lemma fancy_index_raise {A} (a : list A) idx e :
  fancy_index a idx = Raise e ->
  e = IndexError /\ Exists (fun i => length a <= i) idx.
Proof.
  induction idx as [|i idx IH]; simpl; [discriminate|].
  destruct (a !! i) as [x|] eqn:Ei.
  - destruct (fancy_index a idx) as [xs|e']; [discriminate|].
    intros [= ->]. destruct IH as [-> Hex]; [reflexivity|].
    split; [reflexivity | right; exact Hex].
  - intros [= <-]. split; [reflexivity|]. left.
    apply lookup_ge_None. exact Ei.
Qed.

Lemma fancy_index_out_of_bounds {A} (a : list A) idx :
  Exists (fun i => length a <= i) idx -> fancy_index a idx = Raise IndexError.
Proof.
  intros Hex. destruct (fancy_index a idx) as [xs|e] eqn:E.
  - exfalso. apply Exists_exists in Hex as (i & Hi & Hge).
    apply list_elem_of_lookup in Hi as [k Hk].
    pose proof (fancy_index_lookup _ _ _ _ _ E Hk) as Hlook.
    assert (Hlt : k < length xs).
    { rewrite (fancy_index_length _ _ _ E). apply lookup_lt_is_Some. eauto. }
    destruct (lookup_lt_is_Some_2 _ _ Hlt) as [x Hx].
    rewrite Hx in Hlook. symmetry in Hlook.
    apply lookup_lt_Some in Hlook. lia.
  - destruct (fancy_index_raise _ _ _ E) as [-> _]. reflexivity.
Qed.

Section ColdStartErrors.

Variable sort_values : DataFrame -> DataFrame.
Hypothesis sort_values_ok : sorts_by_score_desc sort_values.

Lemma candidate_pool_size df size :
  length (candidate_pool sort_values df size)
  = size `min` length (unique (movie_id <$> df)).
Proof.
  unfold candidate_pool. rewrite length_take. f_equal.
  apply Permutation_length, unique_Permutation, fmap_Permutation,
        sort_values_ok.
Qed.

(** X10. [recommend_for_new_users] returns exactly when every drawn index
    is below both the pool size and the number of distinct movies of the
    data frame; when the table has fewer distinct movies than the pool
    size (100 by default) and a draw lands beyond them, the call raises
    [IndexError]. *)
Theorem recommend_for_new_users_short_table df size draws :
  0 < size ->
  (Forall (fun d => d < size `min` length (unique (movie_id <$> df))) draws ->
   is_ok (recommend_for_new_users sort_values df size draws)) /\
  (Exists (fun d => size `min` length (unique (movie_id <$> df)) <= d) draws ->
   recommend_for_new_users sort_values df size draws = Raise IndexError).
Proof.
  intros Hpos. unfold recommend_for_new_users.
  destruct (Nat.eqb_spec size 0) as [|_]; [lia|].
  rewrite <- (candidate_pool_size df size). split.
  - apply fancy_index_defined.
  - apply fancy_index_out_of_bounds.
Qed.

End ColdStartErrors.

Lemma recommend_for_new_users_short_table_witness :
  recommend_for_new_users merge_sort_values
    [DfRow 2 10; DfRow 5 10; DfRow 2 10] 100 [1; 57; 0] = Raise IndexError.
Proof.
  apply (recommend_for_new_users_short_table merge_sort_values
           merge_sort_values_sorts [DfRow 2 10; DfRow 5 10; DfRow 2 10]
           100 [1; 57; 0]); [lia|].
  right. left. vm_compute. lia.
Defined.

(** ** [recommend_for_user]: rows, and the keys of the answer *)

(** X11. [recommend_for_user] raises before the model is asked anything:
    [AttributeError] for every user id when the recommender has no model
    (no model file was found and [fit] was not called), and [IndexError]
    for a user id that has no row in [self.sparse_matrix] when it has
    one, whatever that model is. *)
Theorem recommend_for_user_no_row `{Recommender Model}
    (self : RecommenderSystem Model) (user_id N : nat) :
  (model self = None ->
   recommend_for_user self user_id N = Raise AttributeError) /\
  (is_Some (model self) ->
   length (rows (sparse_matrix self)) <= user_id ->
   recommend_for_user self user_id N = Raise IndexError).
Proof.
  unfold recommend_for_user. split.
  - intros ->. reflexivity.
  - intros [fitted ->] Hge. unfold getrow.
    rewrite (lookup_ge_None_2 _ _ Hge). reflexivity.
Qed.

Lemma recommend_for_user_no_row_witness :
  recommend_for_user
    {| df := []; sparse_matrix := CsrMatrix 2 [∅];
       model_save_address := "als_recommender_model.npz";
       model := None (A := recorded_answer); test_score := None |} 0 2
  = Raise AttributeError /\
  recommend_for_user
    {| df := []; sparse_matrix := CsrMatrix 2 [∅];
       model_save_address := "als_recommender_model.npz";
       model := Some (RecordedAnswer [1; 0] [1%Q; 0%Q]);
       test_score := None |} 1 2
  = Raise IndexError.
Proof.
  split.
  - apply (proj1 (recommend_for_user_no_row _ 0 2)). reflexivity.
  - apply (proj2 (recommend_for_user_no_row _ 1 2)).
    + eexists. reflexivity.
    + simpl. lia.
Defined.

Lemma dict_set_keys {V} (d : list (nat * V)) k v :
  (dict_set d k v).*1 = if decide (k ∈ d.*1) then d.*1 else d.*1 ++ [k].
Proof.
  induction d as [|[k' v'] d IH]; [reflexivity|].
  cbn [dict_set]. destruct (decide (k' = k)) as [-> | Hne].
  - rewrite decide_True by (rewrite fmap_cons; left). reflexivity.
  - rewrite !fmap_cons, IH. cbn [fst].
    destruct (decide (k ∈ d.*1)) as [Hin | Hnot].
    + rewrite decide_True by (right; exact Hin). reflexivity.
    + rewrite decide_False; [reflexivity|].
      apply not_elem_of_cons. split; [congruence | exact Hnot].
Qed.

Lemma dict_set_NoDup {V} (d : list (nat * V)) k v :
  NoDup d.*1 -> NoDup (dict_set d k v).*1.
Proof.
  intros Hnd. rewrite dict_set_keys. destruct (decide (k ∈ d.*1)); [exact Hnd|].
  apply NoDup_app. split; [exact Hnd|]. split.
  - intros x Hx [-> | Hin]%elem_of_cons; [contradiction | inversion Hin].
  - apply NoDup_singleton.
Qed.

Lemma foldl_dict_set_keys {V} (pairs d : list (nat * V)) :
  NoDup d.*1 ->
  NoDup (foldl (fun d kv => dict_set d kv.1 kv.2) d pairs).*1 /\
  (forall k, k ∈ (foldl (fun d kv => dict_set d kv.1 kv.2) d pairs).*1 <->
             k ∈ d.*1 \/ k ∈ pairs.*1).
Proof.
  revert d. induction pairs as [|[k v] pairs IH]; intros d Hnd; cbn [foldl].
  - split; [exact Hnd|]. intros k'. rewrite fmap_nil, elem_of_nil. tauto.
  - destruct (IH (dict_set d k v) (dict_set_NoDup d k v Hnd)) as [Hnd' Hkeys].
    split; [exact Hnd'|]. intros k'. rewrite Hkeys, dict_set_keys, fmap_cons.
    cbn [fst snd]. rewrite elem_of_cons.
    destruct (decide (k ∈ d.*1)) as [Hin | Hnot].
    + split; [tauto|]. intros [H | [-> | H]]; tauto.
    + rewrite elem_of_app, list_elem_of_singleton. tauto.
Qed.

(** X12. The dictionary [recommend_for_user] returns never holds a movie
    id twice and holds exactly the ids the model returned (as far as
    they are paired with a score), whatever the model returns: a
    repeated id is merged into one entry. *)
Theorem recommend_for_user_keys `{Recommender Model}
    (self : RecommenderSystem Model) (user_id N : nat) d :
  recommend_for_user self user_id N = Ok d ->
  exists fitted user_items ids scores,
    model self = Some fitted /\
    getrow (sparse_matrix self) user_id = Ok user_items /\
    recommend fitted user_id user_items N = Ok (ids, scores) /\
    NoDup (dict_keys d) /\
    (forall k, k ∈ dict_keys d <-> k ∈ (zip ids scores).*1) /\
    length d <= length ids.
Proof.
  unfold recommend_for_user.
  destruct (model self) as [fitted|]; [|discriminate].
  destruct (getrow (sparse_matrix self) user_id) as [user_items|] eqn:Hrow;
    [|discriminate].
  cbn [mbind result_bind].
  destruct (recommend fitted user_id user_items N) as [[ids scores]|] eqn:Hrec;
    [|discriminate].
  cbn [mbind result_bind fst snd]. intros [= <-].
  exists fitted, user_items, ids, scores.
  split; [reflexivity|]. split; [reflexivity|]. split; [exact Hrec|].
  destruct (foldl_dict_set_keys (zip ids scores) [] (NoDup_nil_2))
    as [Hnd Hkeys].
  split; [exact Hnd|]. split.
  - intros k. unfold dict_keys, dict_of. rewrite Hkeys.
    rewrite fmap_nil, elem_of_nil. tauto.
  - etransitivity; [apply dict_of_length|]. rewrite length_zip. lia.
Qed.

(** An answer that names item 0 twice: the dictionary has it once. *)
Lemma recommend_for_user_keys_witness :
  exists fitted user_items ids scores,
    Some (RecordedAnswer [3; 1; 0; 0] [2%Q; 1%Q; 0%Q; 0%Q]) = Some fitted /\
    getrow (CsrMatrix 4 [ {[ 2 := 1%Z ]} ]) 0 = Ok user_items /\
    recommend fitted 0 user_items 4 = Ok (ids, scores) /\
    NoDup (dict_keys [(3, 2%Q); (1, 1%Q); (0, 0%Q)]) /\
    (forall k, k ∈ dict_keys [(3, 2%Q); (1, 1%Q); (0, 0%Q)]
               <-> k ∈ (zip ids scores).*1) /\
    length [(3, 2%Q); (1, 1%Q); (0, 0%Q)] <= length ids.
Proof.
  apply (recommend_for_user_keys
           {| df := []; sparse_matrix := CsrMatrix 4 [ {[ 2 := 1%Z ]} ];
              model_save_address := "als_recommender_model.npz";
              model := Some (RecordedAnswer [3; 1; 0; 0] [2%Q; 1%Q; 0%Q; 0%Q]);
              test_score := None |} 0 4).
  reflexivity.
Defined.

(** * Properties of the dataset *)

(** ** Strings and addresses *)

Lemma str_app_inj_length (a b c d : string) :
  String.length a = String.length b -> a +:+ c = b +:+ d -> a = b.
Proof.
  revert b. induction a as [|x a IH]; intros [|y b]; simpl; try discriminate.
  - reflexivity.
  - intros [= Hlen] [= -> Happ]. f_equal. apply IH; assumption.
Qed.

Lemma str_replace_absent old new s :
  str_count old s = 0 -> str_replace old new s = s.
Proof.
  induction s as [|c s IH]; simpl; [reflexivity|].
  destruct (decide (c = old)); [discriminate|].
  intros H. rewrite IH by exact H. reflexivity.
Qed.

Lemma str_replace_length old new s :
  String.length (str_replace old new s) + str_count old s
  = String.length s + str_count old s * String.length new.
Proof.
  induction s as [|c s IH]; simpl; [reflexivity|].
  destruct (decide (c = old)); simpl.
  - rewrite str_length_app. lia.
  - lia.
Qed.

Lemma str_replace_inj_same_length old new1 new2 s :
  String.length new1 = String.length new2 ->
  0 < str_count old s ->
  str_replace old new1 s = str_replace old new2 s -> new1 = new2.
Proof.
  intros Hlen. induction s as [|c s IH]; simpl; [lia|].
  destruct (decide (c = old)).
  - intros _ Heq. apply (str_app_inj_length _ _ _ _ Hlen Heq).
  - intros Hcount [= Heq]. apply IH; assumption.
Qed.

(** Replacing a character that occurs by two different strings gives two
    different strings. *)
Lemma str_replace_inj old new1 new2 s :
  0 < str_count old s ->
  str_replace old new1 s = str_replace old new2 s -> new1 = new2.
Proof.
  intros Hcount Heq.
  apply (str_replace_inj_same_length old new1 new2 s); try assumption.
  pose proof (str_replace_length old new1 s) as H1.
  pose proof (str_replace_length old new2 s) as H2.
  rewrite Heq in H1. nia.
Qed.

Lemma rating_address_inj ds i j :
  0 < str_count "x" (rating_address_template ds) ->
  rating_address ds i = rating_address ds j -> i = j.
Proof.
  intros Hx Heq. apply (inj pretty).
  apply (str_replace_inj _ _ _ _ Hx Heq).
Qed.

(** ** [get_cleaned_ratings] *)

Lemma read_all_not_failed d addresses e : read_all d addresses <> Failed e.
Proof.
  induction addresses as [|a rest IH]; simpl; [discriminate|].
  destruct (read_ratings d !! a); [|discriminate].
  destruct (read_all d rest) as [ts|e'|p]; try discriminate.
  cbn [mbind io_result_bind]. intros [= ->]. apply IH. reflexivity.
Qed.

Lemma read_all_done d addresses tables :
  read_all d addresses = Done tables <->
  Forall2 (fun a t => read_ratings d !! a = Some t) addresses tables.
Proof.
  revert tables. induction addresses as [|a rest IH]; intros tables; simpl.
  - split; [intros [= <-]; constructor | intros H; inversion H; reflexivity].
  - destruct (read_ratings d !! a) as [t|] eqn:Ea.
    + destruct (read_all d rest) as [ts| |] eqn:Erest; cbn [mbind io_result_bind].
      * split.
        -- intros [= <-]. constructor; [exact Ea | apply IH; reflexivity].
        -- intros H. inversion H as [|? t' ? ts' Ht Hts]; subst.
           apply IH in Hts. congruence.
      * split; [discriminate|]. intros H. inversion H; subst.
        match goal with H' : Forall2 _ rest _ |- _ => apply IH in H' end.
        discriminate.
      * split; [discriminate|]. intros H. inversion H; subst.
        match goal with H' : Forall2 _ rest _ |- _ => apply IH in H' end.
        discriminate.
    + split; [discriminate|]. intros H. inversion H; subst. congruence.
Qed.

Lemma read_all_missing d addresses path :
  read_all d addresses = FileNotFound path <->
  exists before after,
    addresses = before ++ path :: after /\
    read_ratings d !! path = None /\
    Forall (fun a => is_Some (read_ratings d !! a)) before.
Proof.
  induction addresses as [|a rest IH]; simpl.
  - split; [discriminate|]. intros (before & after & H & _).
    destruct before; discriminate.
  - destruct (read_ratings d !! a) as [t|] eqn:Ea.
    + destruct (read_all d rest) as [ts| |p] eqn:Erest;
        cbn [mbind io_result_bind].
      * split; [discriminate|].
        intros (before & after & Hsplit & Hnone & Hall).
        destruct before as [|b before]; simpl in Hsplit.
        -- injection Hsplit as -> _. congruence.
        -- injection Hsplit as -> Hrest. apply Forall_cons in Hall as [_ Hall].
           assert (Done ts = FileNotFound path) by (apply IH; eauto).
           discriminate.
      * split; [discriminate|].
        intros (before & after & Hsplit & Hnone & Hall).
        destruct before as [|b before]; simpl in Hsplit.
        -- injection Hsplit as -> _. congruence.
        -- injection Hsplit as -> Hrest. apply Forall_cons in Hall as [_ Hall].
           assert (Failed e = FileNotFound path) by (apply IH; eauto).
           discriminate.
      * split.
        -- intros [= ->]. destruct (proj1 IH eq_refl)
             as (before & after & -> & Hnone & Hall).
           exists (a :: before), after. split; [reflexivity|].
           split; [exact Hnone|]. constructor; [eauto | exact Hall].
        -- intros (before & after & Hsplit & Hnone & Hall).
           destruct before as [|b before]; simpl in Hsplit.
           ++ injection Hsplit as -> _. congruence.
           ++ injection Hsplit as -> Hrest.
              apply Forall_cons in Hall as [_ Hall]. apply IH. eauto.
    + split.
      * intros [= <-]. exists [], rest. split; [reflexivity|].
        split; [exact Ea | constructor].
      * intros (before & after & Hsplit & Hnone & Hall).
        destruct before as [|b before]; simpl in Hsplit.
        -- injection Hsplit as -> _. reflexivity.
        -- injection Hsplit as -> _. apply Forall_cons in Hall as [[t Ht] _].
           congruence.
Qed.

Lemma read_all_ext d d' addresses :
  (forall a, a ∈ addresses -> read_ratings d' !! a = read_ratings d !! a) ->
  read_all d' addresses = read_all d addresses.
Proof.
  induction addresses as [|a rest IH]; intros H; simpl; [reflexivity|].
  rewrite (H a) by left. rewrite IH; [reflexivity|].
  intros a' Ha'. apply H. right. exact Ha'.
Qed.

Lemma get_cleaned_ratings_unfold d ds tables :
  read_all d (rating_address ds <$> seq 1 (NUMBER_OF_RATING_ADDRESSES ds - 1))
  = Done tables ->
  get_cleaned_ratings d ds =
  match tables with
  | [] => Failed ValueError
  | _ => Done (drop_datetime <$> concat tables)
  end.
Proof. intros H. unfold get_cleaned_ratings. rewrite H. reflexivity. Qed.

(** X13. Apart from the [FileNotFoundError] of a missing file,
    [get_cleaned_ratings] raises exactly when
    [NUMBER_OF_RATING_ADDRESSES] is at most 1: the range of file numbers
    is then empty, no file is looked at, and [pd.concat] refuses the
    empty list with [ValueError]. *)
Theorem get_cleaned_ratings_value_error d ds e :
  get_cleaned_ratings d ds = Failed e <->
  e = ValueError /\ NUMBER_OF_RATING_ADDRESSES ds <= 1.
Proof.
  split.
  - unfold get_cleaned_ratings.
    destruct (read_all d _) as [tables|e'|p] eqn:Eread;
      cbn [mbind io_result_bind]; [| |discriminate].
    + destruct tables as [|t ts]; [|discriminate]. intros [= <-].
      split; [reflexivity|].
      apply read_all_done in Eread. apply Forall2_length in Eread.
      rewrite length_fmap, length_seq in Eread. simpl in Eread. lia.
    + exfalso. exact (read_all_not_failed _ _ _ Eread).
  - intros [-> HN]. unfold get_cleaned_ratings.
    replace (NUMBER_OF_RATING_ADDRESSES ds - 1) with 0 by lia. reflexivity.
Qed.

(** X14. [get_cleaned_ratings] never reads the file numbered
    [NUMBER_OF_RATING_ADDRESSES]: the numbers run from 1 to one below it.
    When the template holds the letter x, two disks that differ only at
    that file's address give the same ratings (or the same error). *)
Theorem get_cleaned_ratings_skips_last d d' ds :
  0 < str_count "x" (rating_address_template ds) ->
  (forall path,
     path <> rating_address ds (NUMBER_OF_RATING_ADDRESSES ds) ->
     read_ratings d' !! path = read_ratings d !! path) ->
  get_cleaned_ratings d' ds = get_cleaned_ratings d ds.
Proof.
  intros Hx Hsame. unfold get_cleaned_ratings.
  rewrite (read_all_ext d d'); [reflexivity|].
  intros a (i & -> & Hi%elem_of_seq)%list_elem_of_fmap.
  apply Hsame. intros Heq%(rating_address_inj ds _ _ Hx). lia.
Qed.

Lemma get_cleaned_ratings_skips_last_witness :
  get_cleaned_ratings
    (Disk (<[ "r_3.csv" := [RawRating 9 9 "2005-09-08" 5] ]>
             {[ "r_1.csv" := [RawRating 7 1 "2005-09-06" 3];
                "r_2.csv" := [RawRating 7 2 "2005-09-07" 4] ]}) ∅)
    {| rating_address_template := "r_x.csv";
       NUMBER_OF_RATING_ADDRESSES := 3;
       movie_titles_address := "movie_titles.csv" |}
  = get_cleaned_ratings
      (Disk {[ "r_1.csv" := [RawRating 7 1 "2005-09-06" 3];
               "r_2.csv" := [RawRating 7 2 "2005-09-07" 4] ]} ∅)
      {| rating_address_template := "r_x.csv";
         NUMBER_OF_RATING_ADDRESSES := 3;
         movie_titles_address := "movie_titles.csv" |}.
Proof.
  apply get_cleaned_ratings_skips_last.
  - simpl. lia.
  - intros path Hpath. cbn [read_ratings].
    apply lookup_insert_ne. intros <-. apply Hpath. reflexivity.
Defined.

Lemma seq_split_at start n before i after :
  seq start n = before ++ i :: after ->
  i = start + length before /\ before = seq start (length before) /\
  length before < n.
Proof.
  intros Hsplit.
  assert (Hlen : length before < n).
  { apply (f_equal length) in Hsplit.
    rewrite length_seq, length_app in Hsplit. simpl in Hsplit. lia. }
  assert (Hi : seq start n !! length before = Some i).
  { rewrite Hsplit. apply list_lookup_middle. reflexivity. }
  apply lookup_seq in Hi as [-> _]. split; [reflexivity|]. split; [|exact Hlen].
  apply (f_equal (take (length before))) in Hsplit.
  rewrite take_app_length, take_seq in Hsplit.
  replace (length before `min` n) with (length before) in Hsplit by lia.
  symmetry. exact Hsplit.
Qed.

(** X15. [get_cleaned_ratings] raises [FileNotFoundError] for a path
    exactly when that path is the address of the first missing rating
    file among the numbers 1 to [NUMBER_OF_RATING_ADDRESSES - 1]: the
    files are read in order, and a later missing file is not reached. *)
Theorem get_cleaned_ratings_file_not_found d ds path :
  get_cleaned_ratings d ds = FileNotFound path <->
  exists i,
    1 <= i < NUMBER_OF_RATING_ADDRESSES ds /\
    path = rating_address ds i /\
    read_ratings d !! path = None /\
    forall j, 1 <= j < i -> is_Some (read_ratings d !! rating_address ds j).
Proof.
  set (N := NUMBER_OF_RATING_ADDRESSES ds).
  assert (Hgcr : get_cleaned_ratings d ds = FileNotFound path <->
                 read_all d (rating_address ds <$> seq 1 (N - 1))
                 = FileNotFound path).
  { unfold get_cleaned_ratings. fold N.
    destruct (read_all d _) as [tables|e|p]; cbn [mbind io_result_bind].
    - destruct tables; split; discriminate.
    - split; discriminate.
    - split; intros [= ->]; reflexivity. }
  rewrite Hgcr, read_all_missing. split.
  - intros (before & after & Hsplit & Hnone & Hall).
    apply fmap_app_inv in Hsplit as (s1 & s2' & -> & Hs2 & Hseq).
    symmetry in Hs2. apply fmap_cons_inv in Hs2 as (i & s2 & -> & _ & ->).
    destruct (seq_split_at _ _ _ _ _ Hseq) as (Hi & Hs1 & Hlen).
    exists i. split; [lia|]. split; [reflexivity|]. split; [exact Hnone|].
    intros j Hj. rewrite Forall_forall in Hall. apply Hall.
    apply list_elem_of_fmap_2. rewrite Hs1. apply elem_of_seq. lia.
  - intros (i & Hi & -> & Hnone & Hbefore).
    exists (rating_address ds <$> seq 1 (i - 1)),
           (rating_address ds <$> seq (S i) (N - 1 - i)).
    split; [|split; [exact Hnone|]].
    + rewrite <- fmap_cons, <- fmap_app. f_equal.
      replace (N - 1) with ((i - 1) + S (N - 1 - i)) by lia.
      rewrite seq_app. cbn [seq]. do 3 f_equal; lia.
    + apply Forall_forall.
      intros a (j & -> & Hj%elem_of_seq)%list_elem_of_fmap.
      apply Hbefore. lia.
Qed.

Lemma get_cleaned_ratings_file_not_found_witness :
  get_cleaned_ratings
    (Disk {[ "r_1.csv" := [RawRating 7 1 "2005-09-06" 3];
             "r_3.csv" := [RawRating 9 9 "2005-09-08" 5] ]} ∅)
    {| rating_address_template := "r_x.csv";
       NUMBER_OF_RATING_ADDRESSES := 5;
       movie_titles_address := "movie_titles.csv" |}
  = FileNotFound "r_2.csv".
Proof.
  apply get_cleaned_ratings_file_not_found. exists 2.
  split; [simpl; lia|]. split; [reflexivity|]. split; [reflexivity|].
  intros j Hj. assert (j = 1) as -> by lia. eexists. reflexivity.
Defined.

Lemma read_all_replicate d address table n :
  read_ratings d !! address = Some table ->
  read_all d (replicate n address) = Done (replicate n table).
Proof.
  intros H. induction n as [|n IH]; simpl; [reflexivity|].
  rewrite H, IH. reflexivity.
Qed.

(** X16. When the template holds no letter x, every address is the
    template itself: [get_cleaned_ratings] reads that one file
    [NUMBER_OF_RATING_ADDRESSES - 1] times and every rating of the file
    comes back that many times. *)
Theorem get_cleaned_ratings_without_x d ds table :
  str_count "x" (rating_address_template ds) = 0 ->
  read_ratings d !! rating_address_template ds = Some table ->
  2 <= NUMBER_OF_RATING_ADDRESSES ds ->
  get_cleaned_ratings d ds
  = Done (drop_datetime
            <$> concat (replicate (NUMBER_OF_RATING_ADDRESSES ds - 1) table)).
Proof.
  intros Hx Hfile HN.
  assert (Haddr : rating_address ds <$> seq 1 (NUMBER_OF_RATING_ADDRESSES ds - 1)
                  = replicate (NUMBER_OF_RATING_ADDRESSES ds - 1)
                              (rating_address_template ds)).
  { generalize 1 at 1. generalize (NUMBER_OF_RATING_ADDRESSES ds - 1) as n.
    induction n as [|n IH]; intros start; [reflexivity|].
    cbn [seq replicate]. rewrite fmap_cons, IH. f_equal.
    apply str_replace_absent, Hx. }
  rewrite (get_cleaned_ratings_unfold d ds
             (replicate (NUMBER_OF_RATING_ADDRESSES ds - 1) table)).
  - destruct (NUMBER_OF_RATING_ADDRESSES ds - 1) as [|n] eqn:E; [lia|].
    reflexivity.
  - rewrite Haddr. apply read_all_replicate, Hfile.
Qed.

Lemma get_cleaned_ratings_without_x_witness :
  get_cleaned_ratings
    (Disk {[ "ratings.csv" := [RawRating 7 1 "2005-09-06" 3] ]} ∅)
    {| rating_address_template := "ratings.csv";
       NUMBER_OF_RATING_ADDRESSES := 4;
       movie_titles_address := "movie_titles.csv" |}
  = Done (drop_datetime
            <$> concat (replicate (4 - 1) [RawRating 7 1 "2005-09-06" 3])).
Proof.
  apply (get_cleaned_ratings_without_x
           (Disk {[ "ratings.csv" := [RawRating 7 1 "2005-09-06" 3] ]} ∅)
           {| rating_address_template := "ratings.csv";
              NUMBER_OF_RATING_ADDRESSES := 4;
              movie_titles_address := "movie_titles.csv" |}).
  - reflexivity.
  - reflexivity.
  - simpl. lia.
Defined.

(** ** [groupby] and [merge] *)

Lemma unique_elem l x : x ∈ unique l <-> x ∈ l.
Proof.
  unfold unique. rewrite unique_from_elem, elem_of_nil. tauto.
Qed.

Lemma groupby_keys_elem keys m : m ∈ groupby_keys keys <-> m ∈ keys.
Proof.
  unfold groupby_keys. rewrite merge_sort_Permutation. apply unique_elem.
Qed.

Lemma groupby_keys_NoDup keys : NoDup (groupby_keys keys).
Proof.
  unfold groupby_keys. rewrite merge_sort_Permutation.
  apply unique_from_NoDup.
Qed.

Lemma bind_pair_fmap {A B} (a : A) (l : list B) :
  l ≫= (fun b => [(a, b)]) = pair a <$> l.
Proof. induction l as [|b l IH]; [reflexivity|]. csimpl. rewrite IH. reflexivity. Qed.

Lemma fmap_bind_list {A B C} (f : B -> C) (g : A -> list B) (l : list A) :
  f <$> (l ≫= g) = l ≫= (fun a => f <$> g a).
Proof.
  induction l as [|a l IH]; [reflexivity|].
  rewrite !bind_cons, fmap_app, IH. reflexivity.
Qed.

Lemma merge_inner_elem {A B} (key_l : A -> nat) (key_r : B -> nat)
    (left : list A) (right : list B) a b :
  (a, b) ∈ merge_inner key_l key_r left right <->
  a ∈ left /\ b ∈ right /\ key_r b = key_l a.
Proof.
  unfold merge_inner. rewrite list_elem_of_bind. split.
  - intros (a' & Hin & Ha'). rewrite bind_pair_fmap in Hin.
    apply list_elem_of_fmap in Hin as (b' & [= -> ->] & Hb').
    apply list_elem_of_filter in Hb' as [Hkey Hb']. auto.
  - intros (Ha & Hb & Hkey). exists a. split; [|exact Ha].
    rewrite bind_pair_fmap. apply list_elem_of_fmap_2.
    apply list_elem_of_filter. auto.
Qed.

Lemma filter_length_all {A} (P : A -> Prop) `{forall x, Decision (P x)} l :
  Forall P l -> filter P l = l.
Proof.
  induction 1 as [|x l Hx _ IH]; [reflexivity|].
  rewrite filter_cons_True by exact Hx. rewrite IH. reflexivity.
Qed.

Lemma filter_length_none {A} (P : A -> Prop) `{forall x, Decision (P x)} l :
  Forall (fun x => ~ P x) l -> filter P l = [].
Proof.
  induction 1 as [|x l Hx _ IH]; [reflexivity|].
  rewrite filter_cons_False by exact Hx. exact IH.
Qed.

(** The rows that a key selects from a table made of one block per
    distinct key are the block of that key. *)
Lemma filter_blocks {A} (key : A -> nat) (block : nat -> list A) keys m :
  NoDup keys ->
  (forall k x, x ∈ block k -> key x = k) ->
  filter (fun x => key x = m) (keys ≫= block)
  = if decide (m ∈ keys) then block m else [].
Proof.
  intros Hnd Hblock. induction Hnd as [|k keys Hk Hnd IH].
  - reflexivity.
  - rewrite bind_cons, filter_app, IH.
    destruct (decide (k = m)) as [-> | Hne].
    + rewrite (decide_False (P := m ∈ keys)) by exact Hk.
      rewrite (decide_True (P := m ∈ m :: keys)) by left.
      rewrite filter_length_all, app_nil_r; [reflexivity|].
      apply Forall_forall. intros x Hx. apply (Hblock m x Hx).
    + rewrite filter_length_none.
      * destruct (decide (m ∈ keys)) as [Hin | Hnot].
        -- rewrite decide_True by (right; exact Hin). reflexivity.
        -- rewrite decide_False; [reflexivity|].
           apply not_elem_of_cons. split; [congruence | exact Hnot].
      * apply Forall_forall. intros x Hx E.
        apply Hne. rewrite <- E. symmetry. apply (Hblock k x Hx).
Qed.

(** ** The steps of [get_df] *)

Lemma replace_ratings_with_median_ratings_blocks ratings_df :
  replace_ratings_with_median_ratings ratings_df
  = groupby_keys (rt_movie_id <$> ratings_df) ≫= median_block ratings_df.
Proof.
  unfold replace_ratings_with_median_ratings, merge_inner.
  rewrite fmap_bind_list, list_fmap_bind.
  apply list_bind_ext; [|reflexivity]. intros m. cbn [compose fst].
  rewrite bind_pair_fmap, <- list_fmap_compose. reflexivity.
Qed.

Lemma median_block_key ratings_df k x :
  x ∈ median_block ratings_df k -> md_movie_id x = k.
Proof.
  intros (r & -> & _)%list_elem_of_fmap. reflexivity.
Qed.

(** The rows of a movie in [ratings_with_median] are its ratings, each
    with the median of the movie. *)
Lemma ratings_with_median_of_movie ratings_df m :
  filter (fun x => md_movie_id x = m)
         (replace_ratings_with_median_ratings ratings_df)
  = median_block ratings_df m.
Proof.
  rewrite replace_ratings_with_median_ratings_blocks.
  rewrite (filter_blocks md_movie_id (median_block ratings_df));
    [|apply groupby_keys_NoDup | apply median_block_key].
  destruct (decide (m ∈ groupby_keys (rt_movie_id <$> ratings_df)))
    as [Hin | Hnot]; [reflexivity|].
  unfold median_block. rewrite filter_length_none; [reflexivity|].
  apply Forall_forall. intros r Hr E. apply Hnot.
  apply groupby_keys_elem. rewrite <- E. apply list_elem_of_fmap_2, Hr.
Qed.

Lemma ratings_with_median_elem ratings_df x :
  x ∈ replace_ratings_with_median_ratings ratings_df <->
  exists r, r ∈ ratings_df /\
    x = MedianRow (rt_movie_id r)
                  (median (ratings_of ratings_df (rt_movie_id r)))
                  (rt_user_id r).
Proof.
  rewrite replace_ratings_with_median_ratings_blocks, list_elem_of_bind.
  split.
  - intros (m & (r & -> & [<- Hr]%list_elem_of_filter)%list_elem_of_fmap & _).
    exists r. split; [exact Hr | reflexivity].
  - intros (r & Hr & ->). exists (rt_movie_id r). split.
    + apply list_elem_of_fmap. exists r. split; [reflexivity|].
      apply list_elem_of_filter. split; [reflexivity | exact Hr].
    + apply groupby_keys_elem, list_elem_of_fmap_2, Hr.
Qed.

Lemma count_of_movie ratings_df m :
  length (filter (fun x => md_movie_id x = m)
                 (replace_ratings_with_median_ratings ratings_df))
  = length (ratings_of ratings_df m).
Proof.
  rewrite ratings_with_median_of_movie. unfold median_block, ratings_of.
  rewrite !length_fmap. reflexivity.
Qed.

(** The rows of [rating_final_df]: one per rating, with the median and
    the number of ratings of its movie. *)
Lemma rating_final_elem ratings_df x c :
  (x, c) ∈ merge_median_and_count_ratings
             (replace_ratings_with_median_ratings ratings_df)
             (get_rating_counts
                (replace_ratings_with_median_ratings ratings_df)) <->
  x ∈ replace_ratings_with_median_ratings ratings_df /\
  c = length (ratings_of ratings_df (md_movie_id x)).
Proof.
  unfold merge_median_and_count_ratings, get_rating_counts.
  rewrite list_elem_of_fmap. split.
  - intros ([x' [m c']] & [= -> ->] & (Hx & Hc & Hkey)%merge_inner_elem).
    cbn [fst snd] in *. split; [exact Hx|].
    apply list_elem_of_fmap in Hc as (m' & [= -> ->] & _).
    rewrite Hkey. apply count_of_movie.
  - intros [Hx ->].
    exists (x, (md_movie_id x, length (ratings_of ratings_df (md_movie_id x)))).
    split; [reflexivity|]. apply merge_inner_elem.
    split; [exact Hx|]. split; [|reflexivity].
    apply list_elem_of_fmap. exists (md_movie_id x). split.
    + rewrite count_of_movie. reflexivity.
    + apply groupby_keys_elem, list_elem_of_fmap_2, Hx.
Qed.

(** The rows of the data frame: one for every rating and every title row
    of the rated movie that has a year. *)
Lemma get_df_rows d ds ratings_df movie_titles rows :
  get_cleaned_ratings d ds = Done ratings_df ->
  read_titles d !! movie_titles_address ds = Some movie_titles ->
  get_df d ds = Done rows ->
  forall b, b ∈ rows <->
    exists r t, r ∈ ratings_df /\ t ∈ movie_titles /\
      is_Some (year_of_publication t) /\
      title_movie_id t = rt_movie_id r /\
      b = df_row_of ratings_df r.
Proof.
  intros Hratings Htitles. unfold get_df, get_movie_titles_df.
  rewrite Hratings, Htitles. cbn [mbind io_result_bind]. intros [= <-] b.
  rewrite list_elem_of_fmap. split.
  - intros ([[x c] t] & -> & (Hxc & Ht & Hkey)%merge_inner_elem).
    apply rating_final_elem in Hxc as [(r & Hr & ->)%ratings_with_median_elem ->].
    apply list_elem_of_filter in Ht as [Hyear Ht]. cbn [fst snd md_movie_id] in *.
    exists r, t. repeat (split; [assumption|]). reflexivity.
  - intros (r & t & Hr & Ht & Hyear & Hkey & ->).
    exists (MedianRow (rt_movie_id r)
              (median (ratings_of ratings_df (rt_movie_id r))) (rt_user_id r),
            length (ratings_of ratings_df (rt_movie_id r)), t).
    split; [reflexivity|]. apply merge_inner_elem. split; [|split].
    + apply rating_final_elem. split; [|reflexivity].
      apply ratings_with_median_elem. exists r. split; [exact Hr | reflexivity].
    + apply list_elem_of_filter. split; assumption.
    + exact Hkey.
Qed.

Lemma get_df_inv d ds rows :
  get_df d ds = Done rows ->
  exists ratings_df movie_titles,
    get_cleaned_ratings d ds = Done ratings_df /\
    read_titles d !! movie_titles_address ds = Some movie_titles.
Proof.
  unfold get_df, get_movie_titles_df.
  destruct (get_cleaned_ratings d ds) as [ratings_df| |]; try discriminate.
  cbn [mbind io_result_bind].
  destruct (read_titles d !! movie_titles_address ds) as [movie_titles|];
    [|discriminate].
  intros _. eauto.
Qed.

(** X17. Every row of the data frame [get_df] returns carries, as its
    score, the median of all the ratings of its movie times the number
    of those ratings (and that median and that number in their own
    columns): the rows of one movie all have the same score. *)
Theorem get_df_scores d ds rows :
  get_df d ds = Done rows ->
  exists ratings_df,
    get_cleaned_ratings d ds = Done ratings_df /\
    forall b, b ∈ rows ->
      exists r, r ∈ ratings_df /\
        b_movie_id b = wrap 32 (Z.of_nat (rt_movie_id r)) /\
        b_user_id b = wrap 32 (Z.of_nat (rt_user_id r)) /\
        b_median_rating b = median (ratings_of ratings_df (rt_movie_id r)) /\
        b_count_of_review b
        = wrap 32 (Z.of_nat (length (ratings_of ratings_df (rt_movie_id r)))) /\
        b_score b = movie_score ratings_df (rt_movie_id r).
Proof.
  intros Hdf.
  destruct (get_df_inv _ _ _ Hdf) as (ratings_df & movie_titles & Hr & Ht).
  exists ratings_df. split; [exact Hr|]. intros b Hb.
  apply (get_df_rows d ds ratings_df movie_titles rows Hr Ht Hdf) in Hb
    as (r & t & Hin & _ & _ & _ & ->).
  exists r. repeat split. exact Hin.
Qed.

Lemma get_df_scores_witness :
  exists ratings_df,
    get_cleaned_ratings
      (Disk {[ "r_1.csv" := [RawRating 7 1 "2005-09-06" 3;
                             RawRating 7 2 "2005-09-07" 4] ]}
            {[ "movie_titles.csv" := [TitleRow 7 (Some 1999%Z) "Seven"] ]})
      {| rating_address_template := "r_x.csv";
         NUMBER_OF_RATING_ADDRESSES := 2;
         movie_titles_address := "movie_titles.csv" |}
    = Done ratings_df /\
    forall b,
      b ∈ [BingeRow 7 (7 # 2) 1 2 ((7 # 2) * inject_Z 2);
           BingeRow 7 (7 # 2) 2 2 ((7 # 2) * inject_Z 2)] ->
      exists r, r ∈ ratings_df /\
        b_movie_id b = wrap 32 (Z.of_nat (rt_movie_id r)) /\
        b_user_id b = wrap 32 (Z.of_nat (rt_user_id r)) /\
        b_median_rating b = median (ratings_of ratings_df (rt_movie_id r)) /\
        b_count_of_review b
        = wrap 32 (Z.of_nat (length (ratings_of ratings_df (rt_movie_id r)))) /\
        b_score b = movie_score ratings_df (rt_movie_id r).
Proof.
  apply (get_df_scores
           (Disk {[ "r_1.csv" := [RawRating 7 1 "2005-09-06" 3;
                                  RawRating 7 2 "2005-09-07" 4] ]}
                 {[ "movie_titles.csv" := [TitleRow 7 (Some 1999%Z) "Seven"] ]})
           {| rating_address_template := "r_x.csv";
              NUMBER_OF_RATING_ADDRESSES := 2;
              movie_titles_address := "movie_titles.csv" |}).
  reflexivity.
Defined.

Lemma int32_cast_small (m : nat) :
  (Z.of_nat m < 2 ^ 31)%Z -> Z.to_nat (wrap 32 (Z.of_nat m)) = m.
Proof.
  intros H. rewrite wrap32_small by (unfold int32_range; lia). lia.
Qed.

Section DatasetFrame.

Variables (d : disk) (ds : BingeDataset).
Variables (ratings_df : list rating_row) (movie_titles : list title_row).
Variable rows : list binge_row.
Hypothesis Hratings : get_cleaned_ratings d ds = Done ratings_df.
Hypothesis Htitles : read_titles d !! movie_titles_address ds = Some movie_titles.
Hypothesis Hdf : get_df d ds = Done rows.
Hypothesis Hids : ids_fit_int32 ratings_df.

Lemma as_DataFrame_elem row :
  row ∈ as_DataFrame rows <->
  exists r, r ∈ ratings_df /\ titled movie_titles (rt_movie_id r) /\
    row = DfRow (rt_movie_id r) (movie_score ratings_df (rt_movie_id r)).
Proof.
  unfold as_DataFrame. rewrite list_elem_of_fmap. split.
  - intros (b & -> & Hb).
    apply (get_df_rows d ds ratings_df movie_titles rows Hratings Htitles Hdf)
      in Hb as (r & t & Hr & Ht & Hyear & Hkey & ->).
    exists r. split; [exact Hr|]. split; [exists t; auto|].
    cbn [df_row_of b_movie_id b_score].
    rewrite int32_cast_small by (apply Hids, Hr). reflexivity.
  - intros (r & Hr & (t & Ht & Hkey & Hyear) & ->).
    exists (df_row_of ratings_df r). split.
    + cbn [df_row_of b_movie_id b_score].
      rewrite int32_cast_small by (apply Hids, Hr). reflexivity.
    + apply (get_df_rows d ds ratings_df movie_titles rows Hratings Htitles Hdf).
      exists r, t. auto.
Qed.

Lemma dataset_known_movie m :
  known_movie (as_DataFrame rows) m <->
  rated ratings_df m /\ titled movie_titles m.
Proof.
  unfold known_movie. split.
  - intros (row & (r & Hr & Ht & ->)%as_DataFrame_elem & <-).
    cbn [movie_id]. split; [exists r; auto | exact Ht].
  - intros [(r & Hr & <-) Ht].
    exists (DfRow (rt_movie_id r) (movie_score ratings_df (rt_movie_id r))).
    split; [|reflexivity]. apply as_DataFrame_elem. exists r. auto.
Qed.

(** X18. A movie id is in the data frame exactly when the movie has a
    rating and a title row with a year: a rated movie whose title is
    missing, or whose title has no year, is unknown to [compare_movies]
    and to the cold-start pool. *)
Theorem get_df_known_movie m :
  known_movie (as_DataFrame rows) m <->
  rated ratings_df m /\ titled movie_titles m.
Proof. exact (dataset_known_movie m). Qed.

Lemma loc_score_elem (frame : DataFrame) m s :
  s ∈ loc_score frame m <-> exists row, row ∈ frame /\ movie_id row = m /\ score row = s.
Proof.
  unfold loc_score. rewrite list_elem_of_fmap. split.
  - intros (row & -> & [Hm Hrow]%list_elem_of_filter). eauto.
  - intros (row & Hrow & Hm & <-). exists row. split; [reflexivity|].
    apply list_elem_of_filter. auto.
Qed.

Lemma dataset_score m s :
  iloc0 (loc_score (as_DataFrame rows) m) = Ok s ->
  s = movie_score ratings_df m.
Proof.
  intros Hs. assert (Hin : s ∈ loc_score (as_DataFrame rows) m).
  { destruct (loc_score (as_DataFrame rows) m) as [|s' l]; [discriminate|].
    injection Hs as ->. left. }
  apply loc_score_elem in Hin as (row & (r & _ & _ & ->)%as_DataFrame_elem & <- & <-).
  reflexivity.
Qed.

(** X19. On the data frame of the dataset, [compare_movies] compares the
    popularity scores median x count of the two movies.  For two movies
    with ratings and titles, scores of at most [2^24] (which the float32
    column holds exactly), the first one positive, and a threshold in
    [0, 100]: the answer is [True] when [|S_one - S_two| / S_one * 100]
    is above the threshold by more than the rounding margin, and
    [False] when it is below or at it by that margin. *)
Theorem compare_movies_on_dataset a b t :
  rated ratings_df a -> titled movie_titles a ->
  rated ratings_df b -> titled movie_titles b ->
  (0 <= t <= 100)%Q ->
  (0 < movie_score ratings_df a <= 16777216)%Q ->
  (Qabs (movie_score ratings_df b) <= 16777216)%Q ->
  ((t * (1 + rounding_margin)
    < Qabs (movie_score ratings_df a - movie_score ratings_df b)
      / movie_score ratings_df a * 100)%Q ->
   compare_movies (as_DataFrame rows) a b t = Ok true) /\
  ((Qabs (movie_score ratings_df a - movie_score ratings_df b)
    / movie_score ratings_df a * 100 * (1 + rounding_margin) <= t)%Q ->
   compare_movies (as_DataFrame rows) a b t = Ok false).
Proof.
  intros Hra Hta Hrb Htb Ht [Hpos Hbound] _.
  destruct (proj2 (iloc0_loc_score_known (as_DataFrame rows) a)) as [sa Hsa];
    [apply dataset_known_movie; auto|].
  destruct (proj2 (iloc0_loc_score_known (as_DataFrame rows) b)) as [sb Hsb];
    [apply dataset_known_movie; auto|].
  pose proof (dataset_score _ _ Hsa) as ->.
  pose proof (dataset_score _ _ Hsb) as ->.
  pose proof (compare_movies_margin _ a b t _ _ Hsa Hsb Ht) as Hmargin.
  rewrite (Qabs_pos (movie_score ratings_df a)) in Hmargin by lra.
  destruct (Hmargin ltac:(lra)) as [Htrue Hfalse].
  split; [exact Htrue|]. apply Hfalse.
  change (2 ^ 127)%Q with 170141183460469231731687303715884105728%Q. lra.
Qed.

End DatasetFrame.

Lemma example_get_cleaned_ratings :
  get_cleaned_ratings example_disk example_dataset = Done example_ratings.
Proof. reflexivity. Qed.

Lemma example_get_df : get_df example_disk example_dataset = Done example_rows.
Proof. reflexivity. Qed.

Lemma example_ids_fit_int32 : ids_fit_int32 example_ratings.
Proof.
  intros r Hr. unfold example_ratings in Hr.
  repeat (apply elem_of_cons in Hr as [-> | Hr]; [simpl; lia|]).
  inversion Hr.
Qed.

Lemma get_df_known_movie_witness :
  known_movie (as_DataFrame example_rows) 9 <->
  rated example_ratings 9 /\ titled example_titles 9.
Proof.
  apply (get_df_known_movie example_disk example_dataset example_ratings
           example_titles example_rows).
  - reflexivity.
  - reflexivity.
  - reflexivity.
  - intros r Hr. unfold example_ratings in Hr.
    repeat (apply elem_of_cons in Hr as [-> | Hr]; [simpl; lia|]).
    inversion Hr.
Defined.

Lemma compare_movies_on_dataset_witness :
  compare_movies (as_DataFrame example_rows) 7 5 50 = Ok true.
Proof.
  refine (proj1 (compare_movies_on_dataset example_disk example_dataset
                   example_ratings example_titles example_rows
                   _ _ _ _ 7 5 50 _ _ _ _ _ _ _) _).
  - reflexivity.
  - reflexivity.
  - reflexivity.
  - exact example_ids_fit_int32.
  - exists (RatingRow 7 1 3). split; [left | reflexivity].
  - exists (TitleRow 7 (Some 1999%Z) "Seven").
    split; [left|]. split; [reflexivity | eexists; reflexivity].
  - exists (RatingRow 5 0 2). split; [|reflexivity].
    unfold example_ratings. do 4 right. left.
  - exists (TitleRow 5 (Some 2001%Z) "Five").
    split; [unfold example_titles; do 2 right; left|].
    split; [reflexivity | eexists; reflexivity].
  - split; discriminate.
  - split; [reflexivity | discriminate].
  - discriminate.
  - reflexivity.
Defined.

(** ** The score is a whole number *)

(** X20. The popularity score of a movie, median x count over integer
    ratings, is always a whole number: a median ending in .5 only occurs
    for an even number of ratings. *)
Theorem movie_score_integer ratings_df m :
  exists z : Z, (movie_score ratings_df m == inject_Z z)%Q.
Proof.
  unfold movie_score, median.
  set (values := ratings_of ratings_df m).
  set (sorted := merge_sort Z.le values).
  assert (Hlen : length sorted = length values).
  { unfold sorted. apply Permutation_length, merge_sort_Permutation. }
  rewrite Hlen.
  destruct (Nat.even (length values)) eqn:Heven.
  - apply Nat.even_spec in Heven as [k Hk].
    set (a := sorted !!! (length values / 2 - 1)).
    set (b := sorted !!! (length values / 2)).
    exists ((a + b) * Z.of_nat k)%Z.
    replace (Z.of_nat (length values)) with (2 * Z.of_nat k)%Z by lia.
    rewrite !inject_Z_mult, inject_Z_plus.
    change (inject_Z 2) with 2%Q. field.
  - set (a := sorted !!! (length values / 2)).
    exists (a * Z.of_nat (length values))%Z.
    rewrite inject_Z_mult. reflexivity.
Qed.

(** ** [__init__] *)

Lemma init_inv {Model} d (fs : gmap string (file Model)) ds address sys :
  init d fs ds address = Done sys ->
  exists rows ratings_df X loaded,
    get_df d ds = Done rows /\
    get_cleaned_ratings d ds = Done ratings_df /\
    get_sparse ratings_df = Ok X /\
    load_model fs address = Ok loaded /\
    sys = {| df := as_DataFrame rows;
             sparse_matrix := X;
             model_save_address := address;
             model := loaded;
             test_score := None |}.
Proof.
  unfold init, get_sparse_from_files.
  destruct (get_df d ds) as [rows| |] eqn:Hdf; try discriminate.
  cbn [mbind io_result_bind].
  destruct (get_cleaned_ratings d ds) as [ratings_df| |] eqn:Hr;
    try discriminate.
  cbn [mbind io_result_bind].
  destruct (get_sparse ratings_df) as [X|] eqn:HX; [|discriminate].
  cbn [of_result mbind io_result_bind].
  destruct (load_model fs address) as [loaded|] eqn:Hl; [|discriminate].
  cbn [of_result mbind io_result_bind]. intros [= <-].
  exists rows, ratings_df, X, loaded.
  repeat (split; [reflexivity || assumption|]). reflexivity.
Qed.

(** X22. Every movie of the data frame has a column in the interaction
    matrix: both are built from the same rating files, and a movie is
    only in the data frame when it has a rating. *)
Theorem init_known_movie_has_column {Model} d (fs : gmap string (file Model))
    ds address sys ratings_df m :
  init d fs ds address = Done sys ->
  get_cleaned_ratings d ds = Done ratings_df ->
  ids_fit_int32 ratings_df ->
  known_movie (df sys) m ->
  m < (shape (sparse_matrix sys)).2.
Proof.
  intros Hinit Hr Hids Hknown.
  destruct (init_inv _ _ _ _ _ Hinit)
    as (rows & ratings_df' & X & loaded & Hdf & Hr' & HX & _ & ->).
  assert (ratings_df' = ratings_df) as -> by congruence.
  destruct (get_df_inv _ _ _ Hdf) as (ratings_df' & movie_titles & Hr'' & Ht).
  assert (ratings_df' = ratings_df) as -> by congruence.
  cbn [df sparse_matrix] in *.
  apply (dataset_known_movie d ds ratings_df movie_titles rows Hr Ht Hdf Hids)
    in Hknown as [(r & Hin & <-) _].
  apply (rating_in_shape ratings_df X r HX Hin).
Qed.

Lemma example_init :
  init example_disk ∅ example_dataset "./models/als_recommender_model.npz"
  = Done example_system.
Proof. vm_compute. reflexivity. Qed.

Lemma init_known_movie_has_column_witness :
  7 < (shape (sparse_matrix example_system)).2.
Proof.
  apply (init_known_movie_has_column example_disk ∅ example_dataset
           "./models/als_recommender_model.npz" example_system
           example_ratings 7 example_init).
  - reflexivity.
  - exact example_ids_fit_int32.
  - exists (DfRow 7 ((7 # 2) * inject_Z 2)). split; [|reflexivity].
    right. left.
Defined.
